(** * Terminal session bridge of k8s-terminal-server (lib/terminal.go)

  A shallow embedding of the session registry, the [TerminalSession]
  pty handler, the socket reader loop and the [ExecTerminal]
  orchestrator, with the properties of the bridge stated over it.

  Go values that are references (the [*websocket.Conn] pointer and the
  channels held in a [TerminalSession]) are modelled as keys into
  heaps stored in a [World]; a [TerminalSession] itself is a plain
  value, copied as the Go code copies it. *)

From Stdlib Require Import Strings.Byte Strings.Ascii NArith.
From stdpp Require Import gmap strings list pretty.

Open Scope string_scope.
Open Scope list_scope.
Open Scope stdpp_scope.

(** Go [error] values, identified by their message; [None] is [nil]. *)
Definition error : Type := string.

(** Outcome of a call made by one goroutine: it returns, it panics, or
  the goroutine is suspended with the state unchanged. *)
Inductive Res (A : Type) : Type :=
| Ret (a : A)
| Panic (msg : string)
| Block.
Arguments Ret {A} a.
Arguments Panic {A} msg.
Arguments Block {A}.

Definition nilDeref : string := "invalid memory address or nil pointer dereference".

(** ** Boundary model of github.com/gorilla/websocket

  Only what the bridge observes of a connection: whether this end has
  closed it, whether the transport has failed, the frames the client
  has sent that are not read yet, and the frames written so far. *)
Module websocket.

Inductive MessageType : Type := TextMessage | BinaryMessage.

Record Conn : Type := mkConn {
  closed : bool;
  broken : option error;
  inbox : list (list byte);
  outbox : list (MessageType * list byte)
}.

Definition errClosed : error := "use of closed network connection".

Definition WriteMessage (mt : MessageType) (data : list byte) (c : Conn)
  : option error * Conn :=
  if closed c then (Some errClosed, c)
  else match broken c with
       | Some e => (Some e, c)
       | None => (None, mkConn (closed c) (broken c) (inbox c)
                               (outbox c ++ [(mt, data)]))
       end.

(** [None]: no frame has arrived yet and the transport is healthy, the
    caller stays suspended. *)
Definition ReadMessage (c : Conn)
  : option ((list byte + error) * Conn) :=
  if closed c then Some (inr errClosed, c)
  else match inbox c with
       | m :: rest =>
           Some (inl m, mkConn (closed c) (broken c) rest (outbox c))
       | [] => match broken c with
               | Some e => Some (inr e, c)
               | None => None
               end
       end.

Definition Close (c : Conn) : option error * Conn :=
  if closed c then (Some errClosed, c)
  else (None, mkConn true (broken c) (inbox c) (outbox c)).

End websocket.

(** ** Data model *)

(** remotecommand.TerminalSize (two uint16 fields) *)
Record TerminalSize : Type := mkSize { Width : N; Height : N }.

(** The struct of terminal.go:47. [sockConn] is a pointer ([None] is
  nil); the four channels are references into the channel heaps, and
  reference [0] is the nil channel of the zero value. *)
Record TerminalSession : Type := mkSession {
  id : string;
  sockConn : option nat;
  sizeChan : nat;
  bound : nat;
  receiver : nat;
  sender : nat
}.

(** The zero value, which Go's map index yields for an absent key. *)
Definition zeroSession : TerminalSession := mkSession "" None 0 0 0 0.

(** The history of the process: its log lines, and marks for the calls
  and hand-overs the properties speak about ([execPod] called, a stream
  attached, a chunk placed on channel [ch], a chunk [m] taken off [ch]
  by a [Read] that copied [n] bytes, [Close] invoked). *)
Inductive Event : Type :=
| EvLog (msg : string) (e : option error)
| EvExec (cmd : list string)
| EvStreaming (cmd : list string)
| EvInbound (ch : nat) (m : list byte)
| EvStdin (ch : nat) (m : list byte) (n : nat)
| EvClose (c : option nat).

(** Process state. An unbuffered channel is the queue of values of the
  senders suspended on it (the runtime's send queue): a receive takes
  the head and resumes that sender, and suspends when the queue is
  empty. *)
Record World : Type := mkWorld {
  terminalSessions : gmap string TerminalSession;
  conns : gmap nat websocket.Conn;
  byteChans : gmap nat (list (list byte));
  sizeChans : gmap nat (list TerminalSize);
  readers : gset string;
  nextRef : nat;
  trace : list Event
}.

Definition emptyWorld : World := mkWorld ∅ ∅ ∅ ∅ ∅ 1 [].

Definition setSessions (f : gmap string TerminalSession -> gmap string TerminalSession)
  (w : World) : World :=
  mkWorld (f (terminalSessions w)) (conns w) (byteChans w) (sizeChans w)
          (readers w) (nextRef w) (trace w).

Definition setConn (c : nat) (v : websocket.Conn) (w : World) : World :=
  mkWorld (terminalSessions w) (<[c := v]> (conns w)) (byteChans w)
          (sizeChans w) (readers w) (nextRef w) (trace w).

Definition setByteChan (ch : nat) (q : list (list byte)) (w : World) : World :=
  mkWorld (terminalSessions w) (conns w) (<[ch := q]> (byteChans w))
          (sizeChans w) (readers w) (nextRef w) (trace w).

Definition setSizeChan (ch : nat) (q : list TerminalSize) (w : World) : World :=
  mkWorld (terminalSessions w) (conns w) (byteChans w)
          (<[ch := q]> (sizeChans w)) (readers w) (nextRef w) (trace w).

Definition setReaders (f : gset string -> gset string) (w : World) : World :=
  mkWorld (terminalSessions w) (conns w) (byteChans w) (sizeChans w)
          (f (readers w)) (nextRef w) (trace w).

Definition emit (ev : Event) (w : World) : World :=
  mkWorld (terminalSessions w) (conns w) (byteChans w) (sizeChans w)
          (readers w) (nextRef w) (trace w ++ [ev]).

(** A fresh reference ([make], or the connection built by an upgrade). *)
Definition fresh (w : World) : nat * World :=
  (nextRef w,
   mkWorld (terminalSessions w) (conns w) (byteChans w) (sizeChans w)
           (readers w) (S (nextRef w)) (trace w)).

(** [terminalSessions[sessionId]] *)
Definition lookupSession (sessionId : string) (w : World) : TerminalSession :=
  default zeroSession (terminalSessions w !! sessionId).

(** ** TerminalSession methods (terminal.go:59-101)

  Each method takes the state and gives back the call's outcome and
  the state it leaves; a suspended call leaves the state as it was. *)

(** The single-case [select] of [Next]: a receive on [t.sizeChan]; the
  result is a non-nil pointer to the received size. *)
Definition Next (t : TerminalSession) (w : World)
  : Res (option TerminalSize) * World :=
  match default [] (sizeChans w !! sizeChan t) with
  | size :: rest => (Ret (Some size), setSizeChan (sizeChan t) rest w)
  | [] => (Block, w)
  end.

(** Go's builtin [copy(dst, src)]: the count and the updated [dst]. *)
Definition copy (dst src : list byte) : nat * list byte :=
  let n := Nat.min (length dst) (length src) in
  (n, take n src ++ drop n dst).

(** [Read]: the buffer [p] comes in; the count, the updated buffer and
  the error go out. The trace notes the chunk taken off the channel and
  how many of its bytes were copied. *)
Definition Read (t : TerminalSession) (p : list byte) (w : World)
  : Res (nat * list byte * option error) * World :=
  match default [] (byteChans w !! receiver t) with
  | m :: rest =>
      let '(n, p') := copy p m in
      (Ret (n, p', None),
       emit (EvStdin (receiver t) m n) (setByteChan (receiver t) rest w))
  | [] => (Block, w)
  end.

(** A method call through the [sockConn] pointer. *)
Definition withConn {A : Type} (t : TerminalSession) (w : World)
  (k : nat -> websocket.Conn -> Res A * World) : Res A * World :=
  match sockConn t with
  | None => (Panic nilDeref, w)
  | Some c =>
      match conns w !! c with
      | None => (Panic nilDeref, w)
      | Some cv => k c cv
      end
  end.

Definition Write (t : TerminalSession) (p : list byte) (w : World)
  : Res (nat * option error) * World :=
  withConn t w (fun c cv =>
    let '(err, cv') := websocket.WriteMessage websocket.TextMessage p cv in
    match err with
    | Some e => (Ret (0, Some e), setConn c cv' w)
    | None => (Ret (length p, None), setConn c cv' w)
    end).

Definition Toast (t : TerminalSession) (p : string) (w : World)
  : Res (option error) * World :=
  withConn t w (fun c cv =>
    let '(err, cv') :=
      websocket.WriteMessage websocket.TextMessage
        (String.list_byte_of_string p) cv in
    match err with
    | Some e => (Ret (Some e), setConn c cv' w)
    | None => (Ret None, setConn c cv' w)
    end).

Definition Close (t : TerminalSession) (w : World)
  : Res (option error) * World :=
  let w := emit (EvClose (sockConn t)) w in
  withConn t w (fun c cv =>
    let '(err, cv') := websocket.Close cv in
    match err with
    | Some e => (Ret (Some e), setConn c cv' w)
    | None => (Ret None, setConn c cv' w)
    end).

(** ** Session identifiers (terminal.go:179-187) *)

(** What [crypto/rand.Read] does with the 16-byte buffer: it fills every
  position, or fails. *)
Inductive RandRead : Type :=
| RandOk (fill : nat -> byte)
| RandErr (e : error).

Definition hextable : string := "0123456789abcdef".

Definition hexDigit (n : N) : ascii :=
  default "0"%char (String.get (N.to_nat n) hextable).

(** encoding/hex.Encode: two digits per byte, high nibble first. *)
Definition hexEncode (src : list byte) : string :=
  String.string_of_list_ascii
    (flat_map (fun v => let n := Byte.to_N v in
                        [hexDigit (N.shiftr n 4); hexDigit (N.land n 15)])
              src).

Definition GenTerminalSessionId (r : RandRead) : string * option error :=
  match r with
  | RandErr e => ("", Some e)
  | RandOk fill => (hexEncode (map fill (seq 0 16)), None)
  end.

(** ** Session creation (terminal.go:189-207) *)

(** Outcome of [upgrader.Upgrade]: a new connection, or a nil
  connection and an error. *)
Inductive UpgradeResult : Type :=
| UpgradeOk
| UpgradeErr (e : error).

Definition newConn : websocket.Conn := websocket.mkConn false None [] [].

Definition makeByteChan (w : World) : nat * World :=
  let '(r, w) := fresh w in (r, setByteChan r [] w).

Definition makeSizeChan (w : World) : nat * World :=
  let '(r, w) := fresh w in (r, setSizeChan r [] w).

Definition CreateSession (up : UpgradeResult) (rnd : RandRead) (w : World)
  : (string * option error) * World :=
  let '(conn, w) :=
    match up with
    | UpgradeOk => let '(c, w) := fresh w in (Some c, setConn c newConn w)
    | UpgradeErr e => (None, emit (EvLog "upgrade:" (Some e)) w)
    end in
  let '(sessionId, _) := GenTerminalSessionId rnd in
  let '(bnd, w) := fresh w in
  let '(szc, w) := makeSizeChan w in
  let '(rcv, w) := makeByteChan w in
  let '(snd, w) := makeByteChan w in
  let terminalSession := mkSession sessionId conn szc bnd rcv snd in
  ((sessionId, None), setSessions (insert sessionId terminalSession) w).

(** ** Socket reader loop (terminal.go:209-219)

  One turn of the goroutine started by [go readFromWebTerminal]: it is
  suspended in the channel send while its frame is still queued and in
  [ReadMessage] while no frame has arrived; on a read error it logs
  and leaves the loop. [readers] holds the ids whose loop is alive. *)
Definition readFromWebTerminal (sessionId : string) (w : World)
  : Res unit * World :=
  if decide (sessionId ∈ readers w) then
    let t := lookupSession sessionId w in
    match default [] (byteChans w !! receiver t) with
    | _ :: _ => (Block, w)
    | [] =>
        withConn t w (fun c cv =>
          match websocket.ReadMessage cv with
          | None => (Block, w)
          | Some (inr e, cv') =>
              (Ret (),
               setReaders (fun r => r ∖ {[sessionId]})
                 (emit (EvLog "readFromWebTerminal ReadMessage was closed" None)
                    (emit (EvLog "error: " (Some e)) (setConn c cv' w))))
          | Some (inl message, cv') =>
              (Ret (),
               emit (EvInbound (receiver t) message)
                 (setByteChan (receiver t) [message] (setConn c cv' w)))
          end)
    end
  else (Block, w).

(** ** Boundary model of the remote-exec collaborator
  (k8s.io/client-go/tools/remotecommand)

  The executor is given as an oracle: whether it can be built for a
  request, and what one [Stream] call does. A stream that was attached
  is a finite schedule of what happens while it runs: calls on the pty
  handler made by the executor's copy goroutines, turns of reader
  goroutines, and events on the network. *)
Record ExecRequest : Type := mkReq {
  reqPod : string;
  reqNamespace : string;
  Container : string;
  Command : list string;
  Stdin : bool;
  Stdout : bool;
  Stderr : bool;
  TTY : bool
}.

(** What can happen while a stream runs: the reader loop of a session
  takes a turn; a frame arrives on a connection; the transport of a
  connection fails; the executor calls [Read], [Write] or [Next] on the
  pty handler it was given. *)
Inductive Action : Type :=
| ReaderTurn (sessionId : string)
| NetRecv (c : nat) (m : list byte)
| NetDown (c : nat) (e : error)
| CallRead (p : list byte)
| CallWrite (p : list byte)
| CallNext.

(** One [Stream] call: the command could not be started and nothing was
  attached, or the streams were attached, the schedule ran, and the call
  returned [ret]. *)
Inductive StreamRun : Type :=
| NotStarted (e : error)
| Attached (sched : list Action) (ret : option error).

Record RemoteExec : Type := mkExec {
  NewSPDYExecutor : ExecRequest -> option error;
  Stream : ExecRequest -> StreamRun
}.

(** A goroutine-level result: the call returned, or an unrecovered panic
  ended the process. *)
Inductive Run (A : Type) : Type :=
| Done (a : A)
| Crash (msg : string).
Arguments Done {A} a.
Arguments Crash {A} msg.

(** A frame from the client reaches connection [c]. *)
Definition netRecv (c : nat) (m : list byte) (w : World) : World :=
  match conns w !! c with
  | Some cv =>
      if websocket.closed cv then w
      else
        match websocket.broken cv with
        | Some _ => w
        | None =>
            setConn c (websocket.mkConn (websocket.closed cv)
                         (websocket.broken cv)
                         (websocket.inbox cv ++ [m])
                         (websocket.outbox cv)) w
        end
  | None => w
  end.

(** The transport of connection [c] fails with [e]. *)
Definition netDown (c : nat) (e : error) (w : World) : World :=
  match conns w !! c with
  | Some cv =>
      match websocket.broken cv with
      | Some _ => w
      | None =>
          setConn c (websocket.mkConn (websocket.closed cv) (Some e)
                       (websocket.inbox cv) (websocket.outbox cv)) w
      end
  | None => w
  end.

(** A handler call whose result stays with the executor. *)
Definition forget {A : Type} (r : Res A * World) : Res unit * World :=
  match r with
  | (Ret _, w) => (Ret (), w)
  | (Panic m, w) => (Panic m, w)
  | (Block, w) => (Block, w)
  end.

Definition streamAction (t : TerminalSession) (a : Action) (w : World)
  : Res unit * World :=
  match a with
  | ReaderTurn sessionId => readFromWebTerminal sessionId w
  | NetRecv c m => (Ret (), netRecv c m w)
  | NetDown c e => (Ret (), netDown c e w)
  | CallRead p => forget (Read t p w)
  | CallWrite p => forget (Write t p w)
  | CallNext => forget (Next t w)
  end.

Fixpoint runStream (t : TerminalSession) (sched : list Action) (w : World)
  : Run unit * World :=
  match sched with
  | [] => (Done (), w)
  | a :: rest =>
      match streamAction t a w with
      | (Panic m, w') => (Crash m, w')
      | (_, w') => runStream t rest w'
      end
  end.

(** ** execPod (terminal.go:143-177) *)

(** The request built at terminal.go:149-159. The cluster configuration
  of [loadConfig] and [getClientSet] is taken as loaded: their panic on
  a configuration that cannot be loaded is not part of this model. *)
Definition execRequest (container pod namespace : string) (cmd : list string)
  : ExecRequest :=
  mkReq pod namespace container cmd true true true true.

Definition execPod (rx : RemoteExec) (container pod namespace : string)
  (cmd : list string) (ptyHandler : TerminalSession) (w : World)
  : Run (option error) * World :=
  let req := execRequest container pod namespace cmd in
  let w := emit (EvExec cmd) w in
  match NewSPDYExecutor rx req with
  | Some err => (Done (Some err), w)
  | None =>
      match Stream rx req with
      | NotStarted err => (Done (Some err), w)
      | Attached sched ret =>
          match runStream ptyHandler sched (emit (EvStreaming cmd) w) with
          | (Crash m, w') => (Crash m, w')
          | (Done _, w') => (Done ret, w')
          end
      end
  end.

(** ** ExecTerminal (terminal.go:241-261) *)

Definition shells : list string := ["bash"; "sh"].

(** The [for _, shell := range shells] loop; [err] is the variable
  declared before it. *)
Fixpoint ExecTerminal_loop (rx : RemoteExec)
  (container pod namespace sessionId : string)
  (candidates : list string) (err : option error) (w : World)
  : Run (option error) * World :=
  match candidates with
  | [] => (Done err, w)
  | shell :: rest =>
      match execPod rx container pod namespace [shell]
                    (lookupSession sessionId w) w with
      | (Done None, w') => (Done None, w')
      | (Done (Some e), w') =>
          ExecTerminal_loop rx container pod namespace sessionId rest (Some e)
            (emit (EvLog "ExecTerminal execPod err" (Some e)) w')
      | (Crash m, w') => (Crash m, w')
      end
  end.

(** The receiver of the deferred [Close] is evaluated at the [defer]
  statement; the call runs when the function returns. A panic in one
  of the stream's goroutines ends the process before that. The reader
  goroutine started here takes its turns where the schedule of an
  attached stream places them; the runtime's check on unsynchronised
  map access is not part of this model. *)
Definition ExecTerminal (rx : RemoteExec)
  (container pod namespace sessionId : string) (w : World)
  : Run unit * World :=
  let deferred := lookupSession sessionId w in
  let w := setReaders (fun r => {[sessionId]} ∪ r) w in
  match ExecTerminal_loop rx container pod namespace sessionId shells None w with
  | (Crash m, w) => (Crash m, w)
  | (Done err, w) =>
      let w := match err with
               | Some e => emit (EvLog "ExecTerminal err" (Some e)) w
               | None => emit (EvLog "terminal was closed" None) w
               end in
      match Close deferred w with
      | (Panic m, w) => (Crash m, w)
      | (_, w) => (Done (), w)
      end
  end.

(** * Observations on traces *)

Definition isClose (ev : Event) : bool :=
  match ev with EvClose _ => true | _ => false end.

(** Number of invocations of [TerminalSession.Close]. *)
Definition closes (evs : list Event) : nat := length (filter isClose evs).

(** The commands [execPod] was called with, in order. *)
Definition execs (evs : list Event) : list (list string) :=
  omap (fun ev => match ev with EvExec cmd => Some cmd | _ => None end) evs.

(** The commands whose stream was attached, in order. *)
Definition streamings (evs : list Event) : list (list string) :=
  omap (fun ev => match ev with EvStreaming cmd => Some cmd | _ => None end) evs.

(** Per inbound channel [ch]: the bytes of the chunks the reader loop
  placed on it, the bytes of the chunks [Read] took off it, and the
  bytes [Read] handed to the collaborator, each in order. *)
Definition inbound (ch : nat) (evs : list Event) : list byte :=
  mjoin (omap (fun ev => match ev with
                         | EvInbound ch' m =>
                             if decide (ch' = ch) then Some m else None
                         | _ => None
                         end) evs).

Definition taken (ch : nat) (evs : list Event) : list byte :=
  mjoin (omap (fun ev => match ev with
                         | EvStdin ch' m _ =>
                             if decide (ch' = ch) then Some m else None
                         | _ => None
                         end) evs).

Definition delivered (ch : nat) (evs : list Event) : list byte :=
  mjoin (omap (fun ev => match ev with
                         | EvStdin ch' m n =>
                             if decide (ch' = ch) then Some (take n m) else None
                         | _ => None
                         end) evs).

(** The bytes still queued on a channel. *)
Definition queued (ch : nat) (w : World) : list byte :=
  mjoin (default [] (byteChans w !! ch)).

(** Conservation on a channel: what was placed on it is what was taken
  off it followed by what is still queued. *)
Definition balanced (ch : nat) (w : World) : Prop :=
  inbound ch (trace w) = taken ch (trace w) ++ queued ch w.

(** Every [Read] so far had room for the whole chunk it took. *)
Definition allFit (ch : nat) (evs : list Event) : Prop :=
  Forall (fun ev => match ev with
                    | EvStdin ch' m n => ch' = ch -> n = length m
                    | _ => True
                    end) evs.

(** Events a running stream may add: log lines, chunks placed on the
  inbound channel, and stdin deliveries. *)
Definition quiet (ev : Event) : Prop :=
  match ev with
  | EvLog _ _ | EvInbound _ _ | EvStdin _ _ _ => True
  | _ => False
  end.

(** * Invariants *)

(** The session's connection pointer is non-nil and allocated. *)
Definition live (t : TerminalSession) (w : World) : Prop :=
  exists c, sockConn t = Some c /\ is_Some (conns w !! c).

(** Every running reader loop finds a session with a connection. *)
Definition readers_ok (w : World) : Prop :=
  forall sid, sid ∈ readers w -> live (lookupSession sid w) w.

(** What a running stream leaves alone: the registry, the allocation of
  connections and their closed flag, and it starts no reader loop. *)
Record steady (w w' : World) : Prop := mkSteady {
  steady_sessions : terminalSessions w' = terminalSessions w;
  steady_conns : forall c cv, conns w !! c = Some cv ->
    exists cv', conns w' !! c = Some cv'
                /\ websocket.closed cv' = websocket.closed cv;
  steady_readers : readers w' ⊆ readers w;
  steady_trace : exists evs, trace w' = trace w ++ evs /\ Forall quiet evs
}.

(** * What the oracle fixes about a run *)

(** The error [execPod] hands back for a request, read off the oracle. *)
Definition execResult (rx : RemoteExec) (req : ExecRequest) : option error :=
  match NewSPDYExecutor rx req with
  | Some e => Some e
  | None => match Stream rx req with
          | NotStarted e => Some e
          | Attached _ ret => ret
          end
  end.

(** Whether the command of the request starts, i.e. its stream gets
  attached to the session. *)
Definition starts (rx : RemoteExec) (req : ExecRequest) : bool :=
  match NewSPDYExecutor rx req with
  | Some _ => false
  | None => match Stream rx req with
          | NotStarted _ => false
          | Attached _ _ => true
          end
  end.

(** Events of one [execPod] call, given what its stream added. *)
Definition attemptEvents (rx : RemoteExec) (req : ExecRequest)
  (evs : list Event) : list Event :=
  EvExec (Command req)
  :: (if starts rx req then EvStreaming (Command req) :: evs else []).

(** Events of [ExecTerminal] up to the deferred call. *)
Definition orchestration (rx : RemoteExec) (container pod namespace : string)
  (evs1 evs2 : list Event) : list Event :=
  let bash := execRequest container pod namespace ["bash"] in
  let sh := execRequest container pod namespace ["sh"] in
  attemptEvents rx bash evs1 ++
  match execResult rx bash with
  | None => [EvLog "terminal was closed" None]
  | Some e1 =>
    EvLog "ExecTerminal execPod err" (Some e1)
      :: attemptEvents rx sh evs2 ++
         match execResult rx sh with
         | None => [EvLog "terminal was closed" None]
         | Some e2 => [EvLog "ExecTerminal execPod err" (Some e2);
                       EvLog "ExecTerminal err" (Some e2)]
         end
  end.

(** [steady] with the added events made explicit. *)
Record extends (w w' : World) (evs : list Event) : Prop := mkExtends {
  extends_sessions : terminalSessions w' = terminalSessions w;
  extends_conns : forall c cv, conns w !! c = Some cv ->
    exists cv', conns w' !! c = Some cv'
                /\ websocket.closed cv' = websocket.closed cv;
  extends_readers : readers w' ⊆ readers w;
  extends_trace : trace w' = trace w ++ evs
}.

(** * Concrete runs *)

(** A random source that fills the buffer with the byte 0xa5. *)
Definition fixedRand : RandRead := RandOk (fun _ => "165"%byte).

Definition createdId : string :=
  (CreateSession UpgradeOk fixedRand emptyWorld).1.1.

(** The process after one successful [CreateSession]. *)
Definition createdWorld : World :=
  (CreateSession UpgradeOk fixedRand emptyWorld).2.

(** The session that [createdWorld] registers. *)
Definition createdSession : TerminalSession :=
  lookupSession createdId createdWorld.

(** A collaborator whose stream attaches, exchanges nothing and ends
  without error. *)
Definition idleExec : RemoteExec :=
  mkExec (fun _ => None) (fun _ => Attached [] None).

(** A collaborator that starts bash, writes a prompt, and whose stream
  then ends with the error of a non-zero exit status; sh runs clean. *)
Definition exitStatusExec : RemoteExec :=
  mkExec (fun _ => None)
    (fun req =>
       if decide (Command req = ["bash"])
       then Attached [CallWrite ["$"%byte; " "%byte]]
                     (Some "command terminated with exit code 1")
       else Attached [] None).

(** A collaborator that cannot start any command. *)
Definition noShellExec : RemoteExec :=
  mkExec (fun _ => None)
    (fun req =>
       if decide (Command req = ["bash"])
       then NotStarted "executable file not found: bash"
       else NotStarted "executable file not found: sh").

(** The process after the orchestrator of that session has run to the
  end against [idleExec]: the session is closed. *)
Definition closedWorld : World :=
  (ExecTerminal idleExec "app" "web-1" "default" createdId createdWorld).2.

(** A collaborator during whose bash stream the client sends the
  three-byte frame "abc", the reader loop places it on the inbound
  channel, and the stdin copier reads twice with a two-byte buffer. *)
Definition pasteExec : RemoteExec :=
  mkExec (fun _ => None)
    (fun req =>
       if decide (Command req = ["bash"])
       then Attached [NetRecv 1 ["a"%byte; "b"%byte; "c"%byte];
                      ReaderTurn createdId;
                      CallRead ["000"%byte; "000"%byte];
                      ReaderTurn createdId;
                      CallRead ["000"%byte; "000"%byte]]
                     None
       else Attached [] None).

(** [createdWorld] with the frame "abc" queued on the session's inbound
  channel, as the reader loop leaves it. *)
Definition pendingWorld : World :=
  setByteChan (receiver createdSession)
    [["a"%byte; "b"%byte; "c"%byte]] createdWorld.

(** [createdWorld] with a resize event queued on the session's size
  channel. *)
Definition resizedWorld : World :=
  setSizeChan (sizeChan createdSession) [mkSize 80 24] createdWorld.

(** io.EOF *)
Definition EOF : error := "EOF".

(** The registry is keyed by the sessions' own ids, and every reference
  it holds was allocated. *)
Definition registry_ok (w : World) : Prop :=
  forall k s, terminalSessions w !! k = Some s ->
    id s = k
    /\ receiver s < nextRef w
    /\ (forall c, sockConn s = Some c -> c < nextRef w).

(** * The rest of the package: helpers for the further properties *)

(** A lowercase hexadecimal digit. *)
Definition lowerHex (c : ascii) : bool :=
  bool_decide (c ∈ String.list_ascii_of_string hextable).

(** Position of a digit in [hextable], and the byte two digits spell;
  used to invert [hexEncode]. *)
Definition unhex (c : ascii) : N :=
  match String.index 0 (String.String c String.EmptyString) hextable with
  | Some i => N.of_nat i
  | None => 0
  end.

Fixpoint hexDecode (cs : list ascii) : list byte :=
  match cs with
  | hi :: lo :: rest =>
      default "000"%byte (Byte.of_N (16 * unhex hi + unhex lo)) :: hexDecode rest
  | _ => []
  end.

(** What a run started for the session with connection pointer [own]
  leaves alone: the registry, the reference counter, which connections
  exist and whether they are closed, and the frames written to every
  connection but its own. *)
Record apart (own : option nat) (w w' : World) : Prop := mkApart {
  apart_sessions : terminalSessions w' = terminalSessions w;
  apart_nextRef : nextRef w' = nextRef w;
  apart_closed : forall c,
      websocket.closed <$> conns w' !! c = websocket.closed <$> conns w !! c;
  apart_outbox : forall c, own <> Some c ->
      websocket.outbox <$> conns w' !! c = websocket.outbox <$> conns w !! c
}.

(** A stream schedule that pumps [n] frames from the socket to the
  collaborator: the reader loop of [sessionId] takes a turn, then the
  stdin copier reads into a buffer of [size] bytes, [n] times. *)
Definition pump (sessionId : string) (size n : nat) : list Action :=
  mjoin (replicate n [ReaderTurn sessionId; CallRead (replicate size "000"%byte)]).

(** A collaborator during whose bash stream the client goes away, the
  stdout copier then calls [Write], and whose stream call returns nil
  all the same. *)
Definition lostWriteExec : RemoteExec :=
  mkExec (fun _ => None)
    (fun _ => Attached [NetDown 1 "broken pipe";
                        CallWrite ["l"%byte; "s"%byte]] None).

Definition isCallRead (a : Action) : bool :=
  match a with CallRead _ => true | _ => false end.

(** ** Token check (lib/jwtparser.go)

  Boundary model of github.com/dgrijalva/jwt-go: a parsed token carries
  the library's verdict [Valid] and the expiry claim of its
  [StandardClaims] (an int64, 0 when the claim is absent). *)
Module jwt.

Record Token : Type := mkToken {
  Valid : bool;
  ExpiresAt : Z
}.

(** StandardClaims.VerifyExpiresAt(cmp, req) *)
Definition VerifyExpiresAt (exp cmp : Z) (req : bool) : bool :=
  if (exp =? 0)%Z then negb req else (cmp <=? exp)%Z.

End jwt.

(** [IsVaildJwtToken]: [parsed] is what [jwt.ParseWithClaims] returned
  for the token string (a nil token is [None]), [now] is
  [time.Now().Unix()]. The type assertion on [token.Claims] succeeds,
  the claims value being the one passed to the parser. Next to the
  result stands what is printed on standard output. *)
Definition IsVaildJwtToken (parsed : option jwt.Token * option error)
  (now : Z) : Res bool * list (option error) :=
  let '(token, err) := parsed in
  match token with
  | None => (Panic nilDeref, [])
  | Some tok =>
      if jwt.Valid tok then
        if jwt.VerifyExpiresAt (jwt.ExpiresAt tok) now true
        then (Ret true, [])
        else (Ret false, [])
      else (Ret false, [err])
  end.

(** ** HTTP handlers (server.go) *)

Definition checkJwtToken (parsed : option jwt.Token * option error)
  (now : Z) : Res bool * list (option error) :=
  IsVaildJwtToken parsed now.

(** [TerminalHandler] (server.go:44-61), the route variables already
  extracted. The result is the session id handed to
  [go lib.ExecTerminal], if that goroutine is started. *)
Definition TerminalHandler (parsed : option jwt.Token * option error)
  (now : Z) (up : UpgradeResult) (rnd : RandRead)
  (container pod namespace : string) (w : World)
  : Res (option string) * World :=
  let w :=
    emit (EvLog ("TerminalHandler namespace=" +:+ namespace +:+ ", pod="
                 +:+ pod +:+ ", container=" +:+ container) None) w in
  match (checkJwtToken parsed now).1 with
  | Ret true =>
      let '((sessionId, err), w) := CreateSession up rnd w in
      let w := emit (EvLog ("start terminal: " +:+ sessionId) None) w in
      match err with
      | None => (Ret (Some sessionId), w)
      | Some _ => (Ret None, w)
      end
  | Ret false => (Ret None, emit (EvLog "token is invaild or expired" None) w)
  | Panic m => (Panic m, w)
  | Block => (Block, w)
  end.

(** ** Workload discovery (terminal.go:221-239, server.go:25-33) *)

(** Of a [v1.Pod], the field the code reads. *)
Record Pod : Type := mkPod { Name : string }.

(** The index loop of [GetPodListByLable] over [podNames], a slice of
  [len] empty strings. *)
Definition fillPodNames (items : list Pod) : list string :=
  foldl (fun podNames i =>
           <[i := default "" (Name <$> items !! i)]> podNames)
        (replicate (length items) "") (seq 0 (length items)).

(** [GetPodListByLable] from its [List] call on: [listed] is what the
  clientset's [List] call returned. [getClientSet] at terminal.go:222 is
  taken to have returned; its panic on a configuration that cannot be
  loaded happens before anything modelled here. The result is the slice
  (nil is [None]) and the error, next to the line printed on standard
  output. *)
Definition GetPodListByLable (listed : list Pod + error)
  : (option (list string) * option error) * list string :=
  match listed with
  | inr err => ((None, Some err), [])
  | inl items =>
      ((Some (fillPodNames items), None),
       ["There are " +:+ pretty (length items) +:+ " pods in the cluster"])
  end.

(** How [fmt.Fprintln] prints a slice of strings. *)
Definition printSlice (l : list string) : string :=
  "[" +:+ String.concat " " l +:+ "]".

(** [GetPodHandler], for a listing call that was reached: the status
  code and the body written. *)
Definition GetPodHandler (listed : list Pod + error) : nat * string :=
  let '(pods, _) := (GetPodListByLable listed).1 in
  (200, printSlice (default [] pods) +:+ String.String "010"%char "").

(** * Basic facts *)

Section Projections.

Lemma closes_app (l1 l2 : list Event) :
  closes (l1 ++ l2) = closes l1 + closes l2.
Proof. unfold closes. by rewrite filter_app, length_app. Qed.

Lemma execs_app (l1 l2 : list Event) :
  execs (l1 ++ l2) = execs l1 ++ execs l2.
Proof. apply omap_app. Qed.

Lemma streamings_app (l1 l2 : list Event) :
  streamings (l1 ++ l2) = streamings l1 ++ streamings l2.
Proof. apply omap_app. Qed.

Lemma quiet_closes (evs : list Event) : Forall quiet evs -> closes evs = 0.
Proof.
  induction 1 as [|ev evs Hq _ IH]; [done|].
  destruct ev; try done; exact IH.
Qed.

Lemma quiet_execs (evs : list Event) : Forall quiet evs -> execs evs = [].
Proof.
  induction 1 as [|ev evs Hq _ IH]; [done|].
  destruct ev; try done; exact IH.
Qed.

Lemma quiet_streamings (evs : list Event) :
  Forall quiet evs -> streamings evs = [].
Proof.
  induction 1 as [|ev evs Hq _ IH]; [done|].
  destruct ev; try done; exact IH.
Qed.

End Projections.

Section Steady.

Lemma steady_refl (w : World) : steady w w.
Proof.
  split; [done | eauto | done |].
  exists []. by rewrite app_nil_r.
Qed.

Lemma steady_trans (w1 w2 w3 : World) :
  steady w1 w2 -> steady w2 w3 -> steady w1 w3.
Proof.
  intros [Hs1 Hc1 Hr1 (e1 & Ht1 & Hq1)] [Hs2 Hc2 Hr2 (e2 & Ht2 & Hq2)].
  split.
  - congruence.
  - intros c cv Hc. destruct (Hc1 _ _ Hc) as (cv1 & Hc' & Hcl1).
    destruct (Hc2 _ _ Hc') as (cv2 & Hc'' & Hcl2).
    exists cv2. split; [done | congruence].
  - set_solver.
  - exists (e1 ++ e2). split.
    + rewrite Ht2, Ht1. by rewrite app_assoc.
    + by apply Forall_app.
Qed.

Lemma steady_step (w w1 w2 : World) :
  steady w1 w2 -> steady w w1 -> steady w w2.
Proof. intros H12 H01. by apply (steady_trans w w1 w2). Qed.

Lemma steady_emit (ev : Event) (w : World) : quiet ev -> steady w (emit ev w).
Proof.
  intros Hq. split; simpl; [done | eauto | done |].
  exists [ev]. split; [done | by constructor].
Qed.

Lemma steady_setConn (c : nat) (cv cv' : websocket.Conn) (w : World) :
  conns w !! c = Some cv ->
  websocket.closed cv' = websocket.closed cv ->
  steady w (setConn c cv' w).
Proof.
  intros Hc Hcl. split; simpl; [done | | done |].
  - intros c0 cv0 H0. destruct (decide (c = c0)) as [->|Hne].
    + rewrite lookup_insert_eq. exists cv'. split; [done | congruence].
    + rewrite lookup_insert_ne by done. eauto.
  - exists []. by rewrite app_nil_r.
Qed.

Lemma steady_setByteChan (ch : nat) (q : list (list byte)) (w : World) :
  steady w (setByteChan ch q w).
Proof.
  split; simpl; [done | eauto | done |]. exists []. by rewrite app_nil_r.
Qed.

Lemma steady_setSizeChan (ch : nat) (q : list TerminalSize) (w : World) :
  steady w (setSizeChan ch q w).
Proof.
  split; simpl; [done | eauto | done |]. exists []. by rewrite app_nil_r.
Qed.

Lemma steady_dropReader (sid : string) (w : World) :
  steady w (setReaders (fun r => r ∖ {[sid]}) w).
Proof.
  split; simpl; [done | eauto | |].
  - intros x Hx. by apply elem_of_difference in Hx as [? _].
  - exists []. by rewrite app_nil_r.
Qed.

Lemma live_steady (t : TerminalSession) (w w' : World) :
  steady w w' -> live t w -> live t w'.
Proof.
  intros Hst (c & Hc & [cv Hcv]).
  destruct (steady_conns _ _ Hst _ _ Hcv) as (cv' & Hcv' & _).
  exists c. eauto.
Qed.

Lemma readers_ok_steady (w w' : World) :
  steady w w' -> readers_ok w -> readers_ok w'.
Proof.
  intros Hst Hok sid Hin.
  assert (Hin' : sid ∈ readers w) by (apply (steady_readers _ _ Hst); done).
  unfold lookupSession. rewrite (steady_sessions _ _ Hst).
  apply (live_steady _ w); [done | by apply Hok].
Qed.

End Steady.

(** * The running stream keeps the invariants *)

Section StreamSteps.

Lemma withConn_live {A : Type} (t : TerminalSession) (w : World)
    (k : nat -> websocket.Conn -> Res A * World) :
  live t w ->
  exists c cv, sockConn t = Some c /\ conns w !! c = Some cv
               /\ withConn t w k = k c cv.
Proof.
  intros (c & Hc & [cv Hcv]). exists c, cv.
  unfold withConn. by rewrite Hc, Hcv.
Qed.

Lemma Read_steady (t : TerminalSession) (p : list byte) (w : World) :
  steady w (Read t p w).2.
Proof.
  unfold Read. destruct (default [] _) as [|m rest]; simpl.
  - apply steady_refl.
  - destruct (copy p m) as [n p']. simpl.
    eapply steady_step; [by apply steady_emit|]. apply steady_setByteChan.
Qed.

Lemma Read_no_panic (t : TerminalSession) (p : list byte) (w : World) msg :
  (Read t p w).1 <> Panic msg.
Proof.
  unfold Read. destruct (default [] _) as [|m rest]; [done|].
  by destruct (copy p m).
Qed.

Lemma Next_steady (t : TerminalSession) (w : World) : steady w (Next t w).2.
Proof.
  unfold Next. destruct (default [] _) as [|m rest]; simpl.
  - apply steady_refl.
  - apply steady_setSizeChan.
Qed.

Lemma Next_no_panic (t : TerminalSession) (w : World) msg :
  (Next t w).1 <> Panic msg.
Proof. unfold Next. by destruct (default [] _). Qed.

Lemma WriteMessage_closed mt data (cv : websocket.Conn) :
  websocket.closed (websocket.WriteMessage mt data cv).2
  = websocket.closed cv.
Proof.
  unfold websocket.WriteMessage.
  destruct (websocket.closed cv) eqn:Hcl; [done|].
  by destruct (websocket.broken cv).
Qed.

Lemma Write_steady (t : TerminalSession) (p : list byte) (w : World) :
  steady w (Write t p w).2.
Proof.
  unfold Write, withConn.
  destruct (sockConn t) as [c|]; [|apply steady_refl].
  destruct (conns w !! c) as [cv|] eqn:Hcv; [|apply steady_refl].
  pose proof (WriteMessage_closed websocket.TextMessage p cv) as Hcl.
  destruct (websocket.WriteMessage _ p cv) as [[e|] cv']; simpl in *;
    by eapply steady_setConn.
Qed.

Lemma Write_no_panic (t : TerminalSession) (p : list byte) (w : World) msg :
  live t w -> (Write t p w).1 <> Panic msg.
Proof.
  intros Hl. unfold Write.
  destruct (withConn_live t w
    (fun c cv =>
       let '(err, cv') := websocket.WriteMessage websocket.TextMessage p cv in
       match err with
       | Some e => (Ret (0, Some e), setConn c cv' w)
       | None => (Ret (length p, None), setConn c cv' w)
       end) Hl) as (c & cv & _ & _ & ->).
  by destruct (websocket.WriteMessage _ p cv) as [[e|] cv'].
Qed.

Lemma ReadMessage_closed (cv cv' : websocket.Conn) r :
  websocket.ReadMessage cv = Some (r, cv') ->
  websocket.closed cv' = websocket.closed cv.
Proof.
  unfold websocket.ReadMessage.
  destruct (websocket.closed cv) eqn:Hcl.
  - intros [= _ <-]. done.
  - destruct (websocket.inbox cv) as [|m rest].
    + destruct (websocket.broken cv); [|done]. by intros [= _ <-].
    + by intros [= _ <-].
Qed.

Lemma readFromWebTerminal_steady (sid : string) (w : World) :
  steady w (readFromWebTerminal sid w).2.
Proof.
  unfold readFromWebTerminal, withConn.
  destruct (decide _); [|apply steady_refl].
  destruct (default [] _); [|apply steady_refl].
  destruct (sockConn _) as [c|]; [|apply steady_refl].
  destruct (conns w !! c) as [cv|] eqn:Hcv; [|apply steady_refl].
  destruct (websocket.ReadMessage cv) as [[[m|e0] cv']|] eqn:Hrd;
    [| |apply steady_refl]; simpl;
    pose proof (ReadMessage_closed _ _ _ Hrd) as Hcl.
  - eapply steady_step; [by apply steady_emit|].
    eapply steady_step; [apply steady_setByteChan|].
    exact (steady_setConn c cv cv' w Hcv Hcl).
  - eapply steady_step; [apply steady_dropReader|].
    eapply steady_step; [by apply steady_emit|].
    eapply steady_step; [by apply steady_emit|].
    exact (steady_setConn c cv cv' w Hcv Hcl).
Qed.

Lemma readFromWebTerminal_no_panic (sid : string) (w : World) msg :
  readers_ok w -> (readFromWebTerminal sid w).1 <> Panic msg.
Proof.
  intros Hok. unfold readFromWebTerminal.
  destruct (decide _) as [Hin|]; [|done].
  destruct (default [] _); [|done].
  destruct (Hok _ Hin) as (c & Hc & [cv Hcv]).
  unfold withConn. rewrite Hc, Hcv.
  by destruct (websocket.ReadMessage cv) as [[[m|e0] cv']|].
Qed.

Lemma netRecv_steady (c : nat) (m : list byte) (w : World) :
  steady w (netRecv c m w).
Proof.
  unfold netRecv. destruct (conns w !! c) as [cv|] eqn:Hcv; [|apply steady_refl].
  destruct (websocket.closed cv) eqn:Hcl; [apply steady_refl|].
  destruct (websocket.broken cv); [apply steady_refl|].
  by eapply steady_setConn.
Qed.

Lemma netDown_steady (c : nat) (e : error) (w : World) :
  steady w (netDown c e w).
Proof.
  unfold netDown. destruct (conns w !! c) as [cv|] eqn:Hcv; [|apply steady_refl].
  destruct (websocket.broken cv); [apply steady_refl|].
  by eapply steady_setConn.
Qed.

Lemma forget_snd {A : Type} (r : Res A * World) : (forget r).2 = r.2.
Proof. by destruct r as [[]]. Qed.

Lemma forget_no_panic {A : Type} (r : Res A * World) msg :
  r.1 <> Panic msg -> (forget r).1 <> Panic msg.
Proof. destruct r as [[] ?]; simpl; congruence. Qed.

Lemma streamAction_steady (t : TerminalSession) (a : Action) (w : World) :
  steady w (streamAction t a w).2.
Proof.
  destruct a; simpl.
  - apply readFromWebTerminal_steady.
  - apply netRecv_steady.
  - apply netDown_steady.
  - rewrite forget_snd. apply Read_steady.
  - rewrite forget_snd. apply Write_steady.
  - rewrite forget_snd. apply Next_steady.
Qed.

Lemma streamAction_no_panic (t : TerminalSession) (a : Action) (w : World) msg :
  readers_ok w -> live t w -> (streamAction t a w).1 <> Panic msg.
Proof.
  intros Hok Hl. destruct a; simpl; try done.
  - by apply readFromWebTerminal_no_panic.
  - apply forget_no_panic. apply Read_no_panic.
  - apply forget_no_panic. by apply Write_no_panic.
  - apply forget_no_panic. apply Next_no_panic.
Qed.

Lemma runStream_ok (t : TerminalSession) (sched : list Action) (w : World) :
  readers_ok w -> live t w ->
  exists w', runStream t sched w = (Done (), w') /\ steady w w'.
Proof.
  revert w. induction sched as [|a rest IH]; intros w Hok Hl; simpl.
  - eexists. split; [done | apply steady_refl].
  - pose proof (streamAction_steady t a w) as Hst.
    assert (Hnp : forall msg, (streamAction t a w).1 <> Panic msg)
      by (intros msg; by apply streamAction_no_panic).
    destruct (streamAction t a w) as [r w1]; simpl in *.
    destruct (IH w1) as (w' & Hrun & Hst');
      [by eapply readers_ok_steady | by eapply live_steady |].
    exists w'. split; [|by eapply steady_trans].
    destruct r as [[]|msg|]; [done | by destruct (Hnp msg) | done].
Qed.

End StreamSteps.

(** * One attempt and the whole orchestration *)

(** Both sides of an equation between event lists, re-associated to the
  right. *)
Ltac assoc_norm :=
  unfold attemptEvents; cbn [trace setReaders];
  repeat (rewrite <- app_assoc || rewrite <- app_comm_cons);
  cbn [app]; reflexivity.


Section Orchestration.

Variable rx : RemoteExec.
Variables container pod namespace : string.

Lemma steady_extends (w w' : World) :
  steady w w' -> exists evs, extends w w' evs /\ Forall quiet evs.
Proof.
  intros [Hs Hc Hr (evs & Ht & Hq)]. exists evs. by split.
Qed.

Lemma extends_steady (w w' : World) (evs : list Event) :
  extends w w' evs -> Forall quiet evs -> steady w w'.
Proof. intros [Hs Hc Hr Ht] Hq. split; eauto. Qed.

Lemma extends_emit (ev : Event) (w : World) : extends w (emit ev w) [ev].
Proof. split; simpl; eauto. Qed.

Lemma extends_trans (w1 w2 w3 : World) (e1 e2 : list Event) :
  extends w1 w2 e1 -> extends w2 w3 e2 -> extends w1 w3 (e1 ++ e2).
Proof.
  intros [Hs1 Hc1 Hr1 Ht1] [Hs2 Hc2 Hr2 Ht2]. split.
  - congruence.
  - intros c cv Hc. destruct (Hc1 _ _ Hc) as (cv1 & Hc' & Hcl1).
    destruct (Hc2 _ _ Hc') as (cv2 & Hc'' & Hcl2).
    exists cv2. split; [done | congruence].
  - set_solver.
  - rewrite Ht2, Ht1. by rewrite app_assoc.
Qed.

Lemma live_extends (t : TerminalSession) (w w' : World) evs :
  extends w w' evs -> live t w -> live t w'.
Proof.
  intros Hex (c & Hc & [cv Hcv]).
  destruct (extends_conns _ _ _ Hex _ _ Hcv) as (cv' & Hcv' & _).
  exists c. eauto.
Qed.

Lemma readers_ok_extends (w w' : World) evs :
  extends w w' evs -> readers_ok w -> readers_ok w'.
Proof.
  intros Hex Hok sid Hin.
  assert (Hin' : sid ∈ readers w) by (apply (extends_readers _ _ _ Hex); done).
  unfold lookupSession. rewrite (extends_sessions _ _ _ Hex).
  apply (live_extends _ w _ evs); [done | by apply Hok].
Qed.

(** [execPod] on a session with a connection always returns, with the
    error the oracle fixes, and adds exactly the events of one
    attempt. *)
Lemma execPod_ok (cmd : list string) (t : TerminalSession) (w : World) :
  readers_ok w -> live t w ->
  let req := execRequest container pod namespace cmd in
  exists w' evs,
    execPod rx container pod namespace cmd t w = (Done (execResult rx req), w')
    /\ Forall quiet evs
    /\ extends w w' (attemptEvents rx req evs).
Proof.
  intros Hok Hl req. unfold execPod, execResult, attemptEvents, starts.
  fold req. destruct (NewSPDYExecutor rx req) as [e|].
  { exists (emit (EvExec cmd) w), []. repeat split; simpl; eauto. }
  destruct (Stream rx req) as [e|sched ret].
  { exists (emit (EvExec cmd) w), []. repeat split; simpl; eauto. }
  set (w0 := emit (EvStreaming cmd) (emit (EvExec cmd) w)).
  assert (Hex0 : extends w w0 [EvExec cmd; EvStreaming cmd]).
  { apply (extends_trans w (emit (EvExec cmd) w) w0 [_] [_]);
      apply extends_emit. }
  destruct (runStream_ok t sched w0) as (w' & Hrun & Hst).
  { by eapply readers_ok_extends. }
  { by eapply live_extends. }
  destruct (steady_extends _ _ Hst) as (evs & Hex & Hq).
  exists w', evs. rewrite Hrun. repeat split; [done | ..];
    try apply (extends_trans _ _ _ _ _ Hex0 Hex).
Qed.

(** [Close] on a session with a connection: it returns, records its
    invocation, and leaves the connection closed. *)
Lemma Close_live (t : TerminalSession) (c : nat) (cv : websocket.Conn)
    (w : World) :
  sockConn t = Some c -> conns w !! c = Some cv ->
  exists r w',
    Close t w = (Ret r, w')
    /\ terminalSessions w' = terminalSessions w
    /\ trace w' = trace w ++ [EvClose (Some c)]
    /\ (exists cv', conns w' !! c = Some cv'
                    /\ websocket.closed cv' = true).
Proof.
  intros Hc Hcv. unfold Close, withConn. rewrite Hc. simpl. rewrite Hcv.
  unfold websocket.Close. destruct (websocket.closed cv) eqn:Hcl.
  - eexists _, _. split; [done|]. simpl. repeat split.
    exists cv. by rewrite lookup_insert_eq.
  - eexists _, _. split; [done|]. simpl. repeat split.
    eexists. by rewrite lookup_insert_eq.
Qed.

Lemma spawn_readers_ok (sid : string) (w : World) :
  readers_ok w -> live (lookupSession sid w) w ->
  readers_ok (setReaders (fun r => {[sid]} ∪ r) w).
Proof.
  intros Hok Hl sid' Hin. simpl in Hin.
  apply elem_of_union in Hin as [Hin|Hin].
  - apply elem_of_singleton in Hin as ->. exact Hl.
  - exact (Hok _ Hin).
Qed.

(** The orchestrator on a registered session with a connection: it
    returns, the registry is what it was, the connection is closed,
    and the events are those of [orchestration] followed by the one
    deferred [Close]. *)
Lemma ExecTerminal_run (sid : string) (s : TerminalSession) (c : nat)
    (w : World) :
  readers_ok w ->
  terminalSessions w !! sid = Some s ->
  sockConn s = Some c ->
  is_Some (conns w !! c) ->
  exists w' evs1 evs2,
    ExecTerminal rx container pod namespace sid w = (Done (), w')
    /\ Forall quiet evs1 /\ Forall quiet evs2
    /\ terminalSessions w' = terminalSessions w
    /\ (exists cv', conns w' !! c = Some cv'
                    /\ websocket.closed cv' = true)
    /\ trace w' = trace w
                  ++ orchestration rx container pod namespace evs1 evs2
                  ++ [EvClose (Some c)].
Proof.
  intros Hok Hs Hc Hcv. unfold ExecTerminal.
  assert (Hlk : lookupSession sid w = s) by (unfold lookupSession; by rewrite Hs).
  rewrite Hlk.
  set (w0 := setReaders (fun r => {[sid]} ∪ r) w).
  assert (Hl0 : live s w0) by (exists c; done).
  assert (Hok0 : readers_ok w0).
  { apply spawn_readers_ok; [done|]. rewrite Hlk. by exists c. }
  assert (Hlk0 : lookupSession sid w0 = s) by exact Hlk.
  unfold shells. cbn [ExecTerminal_loop]. rewrite Hlk0.
  destruct (execPod_ok ["bash"] s w0 Hok0 Hl0) as (w1 & evs1 & Hrun1 & Hq1 & Hex1).
  rewrite Hrun1. unfold orchestration.
  set (bash := execRequest container pod namespace ["bash"]) in *.
  set (sh := execRequest container pod namespace ["sh"]) in *.
  destruct (execResult rx bash) as [e1|].
  - (* bash returned an error: log it and try sh *)
    set (w1' := emit (EvLog "ExecTerminal execPod err" (Some e1)) w1).
    assert (Hex1' : extends w0 w1'
              (attemptEvents rx bash evs1
               ++ [EvLog "ExecTerminal execPod err" (Some e1)])).
    { eapply extends_trans; [exact Hex1 | apply extends_emit]. }
    assert (Hlk1 : lookupSession sid w1' = s).
    { unfold lookupSession.
      rewrite (extends_sessions _ _ _ Hex1'). exact Hlk. }
    rewrite Hlk1.
    destruct (execPod_ok ["sh"] s w1') as (w2 & evs2 & Hrun2 & Hq2 & Hex2).
    { by eapply readers_ok_extends. }
    { by eapply live_extends. }
    rewrite Hrun2. fold sh in Hex2 |- *.
    pose proof (extends_trans _ _ _ _ _ Hex1' Hex2) as Hex12.
    destruct (execResult rx sh) as [e2|].
    + set (w3 := emit (EvLog "ExecTerminal err" (Some e2))
                   (emit (EvLog "ExecTerminal execPod err" (Some e2)) w2)).
      assert (Hex3 : extends w0 w3
                ((attemptEvents rx bash evs1
                  ++ [EvLog "ExecTerminal execPod err" (Some e1)])
                 ++ attemptEvents rx sh evs2
                 ++ [EvLog "ExecTerminal execPod err" (Some e2);
                     EvLog "ExecTerminal err" (Some e2)])).
      { rewrite (app_assoc _ (attemptEvents rx sh evs2)).
        eapply extends_trans; [exact Hex12|].
        apply (extends_trans _ _ _ [_] [_] (extends_emit _ _) (extends_emit _ _)). }
      destruct Hcv as [cv Hcv].
      destruct (extends_conns _ _ _ Hex3 c cv Hcv) as (cv3 & Hcv3 & _).
      destruct (Close_live s c cv3 w3 Hc Hcv3)
        as (r & w' & Hcl & Hs' & Ht' & Hclosed).
      rewrite Hcl. exists w', evs1, evs2. repeat split; try done.
      * rewrite Hs'. apply (extends_sessions _ _ _ Hex3).
      * rewrite Ht', (extends_trace _ _ _ Hex3). assoc_norm.
    + set (w3 := emit (EvLog "terminal was closed" None) w2).
      assert (Hex3 : extends w0 w3
                (((attemptEvents rx bash evs1
                   ++ [EvLog "ExecTerminal execPod err" (Some e1)])
                  ++ attemptEvents rx sh evs2)
                 ++ [EvLog "terminal was closed" None])).
      { eapply extends_trans; [exact Hex12 | apply extends_emit]. }
      destruct Hcv as [cv Hcv].
      destruct (extends_conns _ _ _ Hex3 c cv Hcv) as (cv3 & Hcv3 & _).
      destruct (Close_live s c cv3 w3 Hc Hcv3)
        as (r & w' & Hcl & Hs' & Ht' & Hclosed).
      rewrite Hcl. exists w', evs1, evs2. repeat split; try done.
      * rewrite Hs'. apply (extends_sessions _ _ _ Hex3).
      * rewrite Ht', (extends_trace _ _ _ Hex3). assoc_norm.
  - (* bash returned nil: break *)
    set (w3 := emit (EvLog "terminal was closed" None) w1).
    assert (Hex3 : extends w0 w3
              (attemptEvents rx bash evs1
               ++ [EvLog "terminal was closed" None])).
    { eapply extends_trans; [exact Hex1 | apply extends_emit]. }
    destruct Hcv as [cv Hcv].
    destruct (extends_conns _ _ _ Hex3 c cv Hcv) as (cv3 & Hcv3 & _).
    destruct (Close_live s c cv3 w3 Hc Hcv3)
      as (r & w' & Hcl & Hs' & Ht' & Hclosed).
    rewrite Hcl. exists w', evs1, [].
    repeat split; try done.
    + rewrite Hs'. apply (extends_sessions _ _ _ Hex3).
    + rewrite Ht', (extends_trace _ _ _ Hex3). assoc_norm.
Qed.

End Orchestration.

(** * The orchestrator and the registry *)

Lemma readers_ok_none (w : World) : readers w = ∅ -> readers_ok w.
Proof. intros Hr sid Hin. rewrite Hr in Hin. by apply not_elem_of_empty in Hin. Qed.

Lemma closes_none (evs : list Event) :
  Forall (fun ev => isClose ev = false) evs -> closes evs = 0.
Proof.
  induction 1 as [|ev evs Hev _ IH]; [done|].
  unfold closes in *. rewrite filter_cons_False; [done|].
  rewrite Hev. simpl. tauto.
Qed.

Lemma quiet_not_close (evs : list Event) :
  Forall quiet evs -> Forall (fun ev => isClose ev = false) evs.
Proof. intros Hq. eapply Forall_impl; [exact Hq|]. by intros []. Qed.

Lemma readers_ok_single (sid : string) (w : World) :
  readers w = {[sid]} -> live (lookupSession sid w) w -> readers_ok w.
Proof.
  intros Hr Hl sid' Hin. rewrite Hr in Hin.
  by apply elem_of_singleton in Hin as ->.
Qed.


(** C1, as stated, fails: a session is created and its orchestrator runs
    to the end with no bytes exchanged, and the registry still holds the
    session's entry afterward. *)
Lemma ExecTerminal_leaves_registry_entry :
  let w' := (ExecTerminal idleExec "app" "web-1" "default"
               createdId createdWorld).2 in
  inbound (receiver createdSession) (trace w') = []
  /\ delivered (receiver createdSession) (trace w') = []
  /\ ~ (terminalSessions w' !! createdId = None).

Proof. vm_compute. split; [|split]; [reflexivity | reflexivity | discriminate]. Qed.

(** C1, amended: when the stream call returns, [ExecTerminal] returns
    with the session's connection closed; the Session Registry is left
    exactly as it was, so the session's entry is still there. *)
Theorem ExecTerminal_closes_connection_keeps_registry
    (rx : RemoteExec) (container pod namespace sessionId : string)
    (s : TerminalSession) (c : nat) (w : World) :
  readers_ok w ->
  terminalSessions w !! sessionId = Some s ->
  sockConn s = Some c ->
  is_Some (conns w !! c) ->
  exists w',
    ExecTerminal rx container pod namespace sessionId w = (Done (), w')
    /\ (exists cv, conns w' !! c = Some cv /\ websocket.closed cv = true)
    /\ terminalSessions w' !! sessionId = Some s
    /\ terminalSessions w' = terminalSessions w.
Proof.
  intros Hok Hs Hc Hcv.
  destruct (ExecTerminal_run rx container pod namespace sessionId s c w
              Hok Hs Hc Hcv)
    as (w' & evs1 & evs2 & Hrun & _ & _ & Hreg & Hclosed & _).
  exists w'. repeat split; [done | done | | done]. by rewrite Hreg.
Qed.

Lemma ExecTerminal_closes_connection_keeps_registry_witness :
  exists w',
    ExecTerminal idleExec "app" "web-1" "default" createdId createdWorld
    = (Done (), w')
    /\ (exists cv, conns w' !! 1 = Some cv /\ websocket.closed cv = true)
    /\ terminalSessions w' !! createdId = Some createdSession
    /\ terminalSessions w' = terminalSessions createdWorld.
Proof.
  apply (ExecTerminal_closes_connection_keeps_registry
           idleExec "app" "web-1" "default" createdId createdSession 1
           createdWorld).
  - apply readers_ok_none. vm_compute. reflexivity.
  - vm_compute. reflexivity.
  - vm_compute. reflexivity.
  - vm_compute. eexists. reflexivity.
Defined.

Lemma runStream_steady (t : TerminalSession) (sched : list Action) (w : World) :
  steady w (runStream t sched w).2.
Proof.
  revert w. induction sched as [|a rest IH]; intros w; simpl.
  - apply steady_refl.
  - pose proof (streamAction_steady t a w) as Hst.
    destruct (streamAction t a w) as [[[]|msg|] w1]; simpl in *;
      [by eapply steady_trans | done | by eapply steady_trans].
Qed.

Lemma execPod_adds_no_close rx container pod namespace cmd
    (t : TerminalSession) (w : World) :
  exists evs,
    trace (execPod rx container pod namespace cmd t w).2 = trace w ++ evs
    /\ Forall (fun ev => isClose ev = false) evs.
Proof.
  unfold execPod. destruct (NewSPDYExecutor rx _) as [e|].
  { exists [EvExec cmd]. split; [done | by repeat constructor]. }
  destruct (Stream rx _) as [e|sched ret].
  { exists [EvExec cmd]. split; [done | by repeat constructor]. }
  pose proof (runStream_steady t sched
                (emit (EvStreaming cmd) (emit (EvExec cmd) w))) as Hst.
  destruct (runStream t sched _) as [[[]|msg] w']; simpl in *;
    destruct (steady_trace _ _ Hst) as (evs & Htr & Hq);
    exists (EvExec cmd :: EvStreaming cmd :: evs);
    (split; [rewrite Htr; simpl; by rewrite <- !app_assoc
            | repeat constructor; by apply quiet_not_close]).
Qed.

Lemma ExecTerminal_loop_adds_no_close rx container pod namespace sessionId
    (candidates : list string) (err : option error) (w : World) :
  exists evs,
    trace (ExecTerminal_loop rx container pod namespace sessionId
             candidates err w).2 = trace w ++ evs
    /\ Forall (fun ev => isClose ev = false) evs.
Proof.
  revert err w. induction candidates as [|shell rest IH]; intros err w; simpl.
  { exists []. by rewrite app_nil_r. }
  destruct (execPod_adds_no_close rx container pod namespace [shell]
              (lookupSession sessionId w) w) as (evs1 & Htr1 & Hn1).
  destruct (execPod rx container pod namespace [shell] _ w)
    as [[[e|]|msg] w1]; simpl in *; [|by eauto..].
  destruct (IH (Some e) (emit (EvLog "ExecTerminal execPod err" (Some e)) w1))
    as (evs2 & Htr2 & Hn2).
  exists (evs1 ++ EvLog "ExecTerminal execPod err" (Some e) :: evs2).
  split.
  - rewrite Htr2. simpl. rewrite Htr1. by rewrite <- !app_assoc.
  - apply Forall_app. split; [done|]. by constructor.
Qed.

(** X19: whatever the state of the session and of the registry, a run
    of [ExecTerminal] never invokes [Close] twice, and it invokes it
    once whenever the body of the function runs to its end. *)
Lemma ExecTerminal_Close_never_twice rx container pod namespace sessionId
    (w : World) :
  let r := ExecTerminal rx container pod namespace sessionId w in
  exists evs,
    trace r.2 = trace w ++ evs
    /\ closes evs <= 1
    /\ (r.1 = Done () -> closes evs = 1).
Proof.
  unfold ExecTerminal.
  destruct (ExecTerminal_loop_adds_no_close rx container pod namespace
              sessionId shells None
              (setReaders (fun r => {[sessionId]} ∪ r) w))
    as (evs & Htr & Hn).
  destruct (ExecTerminal_loop _ _ _ _ _ _ _ _) as [[err|msg] w1]; simpl in *.
  - set (w2 := match err with
               | Some e => emit (EvLog "ExecTerminal err" (Some e)) w1
               | None => emit (EvLog "terminal was closed" None) w1
               end).
    assert (Htr2 : exists ev, trace w2 = trace w1 ++ [ev] /\ isClose ev = false).
    { unfold w2. destruct err; eexists; split; simpl; done. }
    destruct Htr2 as (ev & Htr2 & Hev).
    assert (Hcl : trace (Close (lookupSession sessionId w) w2).2
                  = trace w2 ++ [EvClose (sockConn (lookupSession sessionId w))]).
    { unfold Close, withConn. destruct (sockConn _) as [c|]; [|done]. simpl.
      destruct (conns w2 !! c) as [cv|]; [|done].
      by destruct (websocket.Close cv) as [[e|] cv']. }
    exists (evs ++ [ev] ++ [EvClose (sockConn (lookupSession sessionId w))]).
    assert (Hcount : closes (evs ++ [ev]
                             ++ [EvClose (sockConn (lookupSession sessionId w))])
                     = 1).
    { rewrite !closes_app, (closes_none evs Hn).
      rewrite (closes_none [ev]) by (by constructor). done. }
    destruct (Close _ w2) as [[r|msg|] w3]; simpl in *;
      (split; [rewrite Hcl, Htr2, Htr; by rewrite <- !app_assoc |]);
      rewrite Hcount; split; done.
  - exists evs. split; [done|]. rewrite (closes_none evs Hn). split; [lia|done].
Qed.



(** * Shell candidates *)

Lemma execs_attempt (rx : RemoteExec) (req : ExecRequest) (evs : list Event) :
  Forall quiet evs -> execs (attemptEvents rx req evs) = [Command req].
Proof.
  intros Hq. unfold attemptEvents. destruct (starts rx req); [|done].
  change (execs (EvExec (Command req) :: EvStreaming (Command req) :: evs))
    with (Command req :: execs evs).
  by rewrite quiet_execs.
Qed.

Lemma streamings_attempt (rx : RemoteExec) (req : ExecRequest)
    (evs : list Event) :
  Forall quiet evs ->
  streamings (attemptEvents rx req evs)
  = if starts rx req then [Command req] else [].
Proof.
  intros Hq. unfold attemptEvents. destruct (starts rx req); [|done].
  change (streamings (EvExec (Command req) :: EvStreaming (Command req) :: evs))
    with (Command req :: streamings evs).
  by rewrite quiet_streamings.
Qed.

Lemma starts_false_result (rx : RemoteExec) (req : ExecRequest) :
  starts rx req = false -> exists e, execResult rx req = Some e.
Proof.
  unfold starts, execResult. destruct (NewSPDYExecutor rx req); [eauto|].
  destruct (Stream rx req); [eauto | done].
Qed.

Lemma orchestration_execs rx container pod namespace (evs1 evs2 : list Event) :
  Forall quiet evs1 -> Forall quiet evs2 ->
  execs (orchestration rx container pod namespace evs1 evs2)
  = ["bash"] :: match execResult rx (execRequest container pod namespace ["bash"]) with
                | None => []
                | Some _ => [["sh"]]
                end.
Proof.
  intros Hq1 Hq2. unfold orchestration.
  rewrite execs_app, execs_attempt by done.
  destruct (execResult rx _); [|done].
  change (execs (?ev :: ?l)) with (execs l).
  rewrite execs_app, execs_attempt by done.
  by destruct (execResult rx _).
Qed.

Lemma orchestration_streamings rx container pod namespace
    (evs1 evs2 : list Event) :
  Forall quiet evs1 -> Forall quiet evs2 ->
  streamings (orchestration rx container pod namespace evs1 evs2)
  = (if starts rx (execRequest container pod namespace ["bash"])
     then [["bash"]] else [])
    ++ match execResult rx (execRequest container pod namespace ["bash"]) with
       | None => []
       | Some _ => if starts rx (execRequest container pod namespace ["sh"])
                   then [["sh"]] else []
       end.
Proof.
  intros Hq1 Hq2. unfold orchestration.
  rewrite streamings_app, streamings_attempt by done. f_equal.
  destruct (execResult rx _); [|done].
  change (streamings (?ev :: ?l)) with (streamings l).
  rewrite streamings_app, streamings_attempt by done.
  destruct (execResult rx _); simpl; by rewrite app_nil_r.
Qed.

(** C4, as stated, fails: bash starts (its stream is attached and it
    writes a prompt), the stream then returns an error, and the later
    candidate sh is tried all the same. *)
Lemma ExecTerminal_tries_sh_after_bash_started :
  let w' := (ExecTerminal exitStatusExec "app" "web-1" "default"
               createdId createdWorld).2 in
  starts exitStatusExec (execRequest "app" "web-1" "default" ["bash"]) = true
  /\ execs (trace w') = [["bash"]; ["sh"]]
  /\ ~ (execs (trace w') = [["bash"]]).
Proof. vm_compute. split; [|split]; [reflexivity | reflexivity | discriminate]. Qed.

(** C4, amended: [ExecTerminal] tries the candidates "bash", "sh" in
    that order. The first candidate whose [execPod] call returns no
    error wins and later candidates are not tried; a candidate whose
    call returns an error (it did not start, or it started and its
    stream returned an error) is followed by the next one. If every
    candidate fails to start, the session is closed, the last error is
    reported, and no stream was ever attached. *)
Theorem ExecTerminal_shell_fallback
    (rx : RemoteExec) (container pod namespace sessionId : string)
    (s : TerminalSession) (c : nat) (w : World) :
  readers_ok w ->
  terminalSessions w !! sessionId = Some s ->
  sockConn s = Some c ->
  is_Some (conns w !! c) ->
  let bash := execRequest container pod namespace ["bash"] in
  let sh := execRequest container pod namespace ["sh"] in
  exists w' evs,
    ExecTerminal rx container pod namespace sessionId w = (Done (), w')
    /\ trace w' = trace w ++ evs
    /\ (exists cv, conns w' !! c = Some cv /\ websocket.closed cv = true)
    /\ (execResult rx bash = None -> execs evs = [["bash"]])
    /\ (forall e1, execResult rx bash = Some e1 ->
          execs evs = [["bash"]; ["sh"]])
    /\ (starts rx bash = false -> starts rx sh = true ->
          streamings evs = [["sh"]])
    /\ (starts rx bash = false -> starts rx sh = false ->
          streamings evs = []
          /\ exists e2 pre,
               execResult rx sh = Some e2
               /\ evs = pre ++ [EvLog "ExecTerminal err" (Some e2);
                                EvClose (Some c)]).
Proof.
  intros Hok Hs Hc Hcv bash sh.
  destruct (ExecTerminal_run rx container pod namespace sessionId s c w
              Hok Hs Hc Hcv)
    as (w' & evs1 & evs2 & Hrun & Hq1 & Hq2 & _ & Hclosed & Htr).
  exists w', (orchestration rx container pod namespace evs1 evs2
              ++ [EvClose (Some c)]).
  split; [done|]. split; [done|]. split; [done|].
  rewrite execs_app, orchestration_execs by done. fold bash.
  split; [|split; [|split]].
  - by intros ->.
  - by intros e1 ->.
  - intros Hb Hsh.
    rewrite streamings_app, orchestration_streamings by done.
    fold bash sh. rewrite Hb, Hsh.
    destruct (starts_false_result _ _ Hb) as [e1 He1]. by rewrite He1.
  - intros Hb Hsh.
    rewrite streamings_app, orchestration_streamings by done.
    fold bash sh. rewrite Hb, Hsh.
    destruct (starts_false_result _ _ Hb) as [e1 He1].
    destruct (starts_false_result _ _ Hsh) as [e2 He2].
    rewrite He1. split; [done|].
    exists e2,
      (attemptEvents rx bash evs1
       ++ EvLog "ExecTerminal execPod err" (Some e1)
          :: attemptEvents rx sh evs2
          ++ [EvLog "ExecTerminal execPod err" (Some e2)]).
    unfold orchestration. fold bash sh. rewrite He1, He2.
    split; [done|]. assoc_norm.
Qed.

Lemma ExecTerminal_shell_fallback_witness :
  exists w' evs,
    ExecTerminal noShellExec "app" "web-1" "default" createdId createdWorld
    = (Done (), w')
    /\ trace w' = trace createdWorld ++ evs
    /\ (exists cv, conns w' !! 1 = Some cv /\ websocket.closed cv = true)
    /\ (execResult noShellExec (execRequest "app" "web-1" "default" ["bash"])
        = None -> execs evs = [["bash"]])
    /\ (forall e1,
          execResult noShellExec (execRequest "app" "web-1" "default" ["bash"])
          = Some e1 -> execs evs = [["bash"]; ["sh"]])
    /\ (starts noShellExec (execRequest "app" "web-1" "default" ["bash"])
        = false ->
        starts noShellExec (execRequest "app" "web-1" "default" ["sh"])
        = true ->
          streamings evs = [["sh"]])
    /\ (starts noShellExec (execRequest "app" "web-1" "default" ["bash"])
        = false ->
        starts noShellExec (execRequest "app" "web-1" "default" ["sh"])
        = false ->
          streamings evs = []
          /\ exists e2 pre,
               execResult noShellExec
                 (execRequest "app" "web-1" "default" ["sh"]) = Some e2
               /\ evs = pre ++ [EvLog "ExecTerminal err" (Some e2);
                                EvClose (Some 1)]).
Proof.
  apply (ExecTerminal_shell_fallback
           noShellExec "app" "web-1" "default" createdId createdSession 1
           createdWorld).
  - apply readers_ok_none. vm_compute. reflexivity.
  - vm_compute. reflexivity.
  - vm_compute. reflexivity.
  - vm_compute. eexists. reflexivity.
Defined.

(** C5, as stated, fails: the stream of bash returns an error after
    streaming has begun, and the session is attached and streamed once
    more, with sh. *)
Lemma ExecTerminal_streams_again_after_stream_error :
  let bash := execRequest "app" "web-1" "default" ["bash"] in
  let w' := (ExecTerminal exitStatusExec "app" "web-1" "default"
               createdId createdWorld).2 in
  starts exitStatusExec bash = true
  /\ execResult exitStatusExec bash
     = Some "command terminated with exit code 1"
  /\ streamings (trace w') = [["bash"]; ["sh"]]
  /\ ~ (streamings (trace w') = [["bash"]]).
Proof.
  vm_compute.
  split; [|split; [|split]]; [reflexivity | reflexivity | reflexivity | discriminate].
Qed.

(** C5, amended: an error returned by a stream is logged. When it is
    the stream of the last candidate, sh, it is terminal: nothing but
    the two log lines and the deferred [Close] follows, and the
    connection is closed. When it is the stream of bash, the loop goes
    on to one attempt with sh. At most the two candidates are ever
    attempted, so nothing reconnects. *)
Theorem ExecTerminal_stream_error
    (rx : RemoteExec) (container pod namespace sessionId : string)
    (s : TerminalSession) (c : nat) (w : World) :
  readers_ok w ->
  terminalSessions w !! sessionId = Some s ->
  sockConn s = Some c ->
  is_Some (conns w !! c) ->
  let bash := execRequest container pod namespace ["bash"] in
  let sh := execRequest container pod namespace ["sh"] in
  exists w' evs,
    ExecTerminal rx container pod namespace sessionId w = (Done (), w')
    /\ trace w' = trace w ++ evs
    /\ (exists cv, conns w' !! c = Some cv /\ websocket.closed cv = true)
    /\ length (execs evs) <= 2
    /\ (forall e1 e2,
          execResult rx bash = Some e1 ->
          starts rx sh = true -> execResult rx sh = Some e2 ->
          exists pre during,
            Forall quiet during
            /\ evs = pre ++ EvStreaming ["sh"] :: during
                     ++ [EvLog "ExecTerminal execPod err" (Some e2);
                         EvLog "ExecTerminal err" (Some e2);
                         EvClose (Some c)])
    /\ (forall e1,
          starts rx bash = true -> execResult rx bash = Some e1 ->
          EvLog "ExecTerminal execPod err" (Some e1) ∈ evs
          /\ execs evs = [["bash"]; ["sh"]]).
Proof.
  intros Hok Hs Hc Hcv bash sh.
  destruct (ExecTerminal_run rx container pod namespace sessionId s c w
              Hok Hs Hc Hcv)
    as (w' & evs1 & evs2 & Hrun & Hq1 & Hq2 & _ & Hclosed & Htr).
  exists w', (orchestration rx container pod namespace evs1 evs2
              ++ [EvClose (Some c)]).
  split; [done|]. split; [done|]. split; [done|].
  rewrite execs_app, orchestration_execs by done. fold bash.
  split; [|split].
  - destruct (execResult rx bash); simpl; lia.
  - intros e1 e2 He1 Hst He2.
    exists (attemptEvents rx bash evs1
            ++ [EvLog "ExecTerminal execPod err" (Some e1); EvExec ["sh"]]),
           evs2.
    split; [done|].
    unfold orchestration. fold bash sh. rewrite He1, He2.
    unfold attemptEvents at 2. rewrite Hst. assoc_norm.
  - intros e1 Hst He1. rewrite He1. split; [|done].
    unfold orchestration. fold bash sh. rewrite He1.
    rewrite !elem_of_app. left. right. apply list_elem_of_here.
Qed.

Lemma ExecTerminal_stream_error_witness :
  let rx := mkExec (fun _ => None)
              (fun _ => Attached [] (Some "stream reset")) in
  let bash := execRequest "app" "web-1" "default" ["bash"] in
  let sh := execRequest "app" "web-1" "default" ["sh"] in
  exists w' evs,
    ExecTerminal rx "app" "web-1" "default" createdId createdWorld
    = (Done (), w')
    /\ trace w' = trace createdWorld ++ evs
    /\ (exists cv, conns w' !! 1 = Some cv /\ websocket.closed cv = true)
    /\ length (execs evs) <= 2
    /\ (forall e1 e2,
          execResult rx bash = Some e1 ->
          starts rx sh = true -> execResult rx sh = Some e2 ->
          exists pre during,
            Forall quiet during
            /\ evs = pre ++ EvStreaming ["sh"] :: during
                     ++ [EvLog "ExecTerminal execPod err" (Some e2);
                         EvLog "ExecTerminal err" (Some e2);
                         EvClose (Some 1)])
    /\ (forall e1,
          starts rx bash = true -> execResult rx bash = Some e1 ->
          EvLog "ExecTerminal execPod err" (Some e1) ∈ evs
          /\ execs evs = [["bash"]; ["sh"]]).
Proof.
  intros rx bash sh.
  apply (ExecTerminal_stream_error
           rx "app" "web-1" "default" createdId createdSession 1
           createdWorld).
  - apply readers_ok_none. vm_compute. reflexivity.
  - vm_compute. reflexivity.
  - vm_compute. reflexivity.
  - vm_compute. eexists. reflexivity.
Defined.

(** * Session creation *)

Lemma CreateSession_eq (up : UpgradeResult) (rnd : RandRead) (w : World) :
  let sid := (GenTerminalSessionId rnd).1 in
  let k := match up with UpgradeOk => 1 | UpgradeErr _ => 0 end in
  let n := nextRef w + k in
  let new := mkSession sid
               (match up with UpgradeOk => Some (nextRef w) | UpgradeErr _ => None end)
               (S n) n (S (S n)) (S (S (S n))) in
  exists w',
    CreateSession up rnd w = ((sid, None), w')
    /\ terminalSessions w' = <[sid := new]> (terminalSessions w)
    /\ nextRef w' = S (S (S (S n)))
    /\ (forall c, c < nextRef w -> conns w' !! c = conns w !! c)
    /\ readers w' = readers w.
Proof.
  unfold CreateSession.
  destruct (GenTerminalSessionId rnd) as [sid err] eqn:Hid.
  destruct up as [|e]; simpl.
  - eexists. split; [reflexivity|]. simpl. rewrite Nat.add_1_r.
    repeat split. intros c Hlt. rewrite lookup_insert_ne by lia. done.
  - eexists. split; [reflexivity|]. simpl. rewrite Nat.add_0_r.
    repeat split.
Qed.

Lemma registry_ok_empty : registry_ok emptyWorld.
Proof. intros k s Hk. simpl in Hk. by rewrite lookup_empty in Hk. Qed.

Lemma registry_ok_CreateSession (up : UpgradeResult) (rnd : RandRead)
    (w : World) :
  registry_ok w -> registry_ok (CreateSession up rnd w).2.
Proof.
  intros Hok.
  destruct (CreateSession_eq up rnd w) as (w' & -> & Hreg & Hnext & _ & _).
  simpl. intros k s. rewrite Hreg, Hnext.
  destruct (decide ((GenTerminalSessionId rnd).1 = k)) as [<-|Hne].
  - rewrite lookup_insert_eq. intros [= <-]. simpl.
    split; [done|]. split; [lia|].
    intros c. destruct up; intros [= <-]; lia.
  - rewrite lookup_insert_ne by done. intros Hk.
    destruct (Hok _ _ Hk) as (Hid & Hrcv & Hconn).
    split; [done|]. split; [lia|].
    intros c Hc. specialize (Hconn c Hc). lia.
Qed.

(** C3 (the code departs from it): when the upgrade fails, and likewise
    when the random source fails, [CreateSession] still builds a session
    and registers it, and reports no failure to its caller. With a
    failed upgrade the registered session has a nil connection; with a
    failed random source it is registered under the empty id. *)
Theorem CreateSession_registers_despite_failure :
  (forall (e : error) (rnd : RandRead) (w : World),
     exists sid s w',
       CreateSession (UpgradeErr e) rnd w = ((sid, None), w')
       /\ terminalSessions w' !! sid = Some s
       /\ id s = sid /\ sockConn s = None)
  /\ (forall (up : UpgradeResult) (e : error) (w : World),
        exists s w',
          CreateSession up (RandErr e) w = (("", None), w')
          /\ terminalSessions w' !! "" = Some s).
Proof.
  split.
  - intros e rnd w.
    destruct (CreateSession_eq (UpgradeErr e) rnd w)
      as (w' & Hrun & Hreg & _).
    eexists _, _, w'. split; [exact Hrun|].
    rewrite Hreg, lookup_insert_eq. done.
  - intros up e w.
    destruct (CreateSession_eq up (RandErr e) w) as (w' & Hrun & Hreg & _).
    eexists _, w'. split; [exact Hrun|].
    rewrite Hreg. simpl. by rewrite lookup_insert_eq.
Qed.

(** A failed upgrade followed through: the session is
    registered with a nil connection and no error is returned; the
    caller then starts the orchestrator, whose deferred [Close]
    dereferences the nil connection. *)
Example CreateSession_failed_upgrade_run :
  let '((sid, err), w) :=
    CreateSession (UpgradeErr "websocket: bad handshake") fixedRand emptyWorld in
  err = None
  /\ sockConn (lookupSession sid w) = None
  /\ is_Some (terminalSessions w !! sid)
  /\ (ExecTerminal noShellExec "app" "web-1" "default" sid w).1
     = Crash nilDeref.
Proof. vm_compute. repeat split. eexists. reflexivity. Qed.

(** C10: when the generated identifier is already a key of the
    registry, [CreateSession] returns no error and the insert replaces
    the entry: the key now maps to the new session, no key maps to the
    previous session any more, every other entry is untouched, and the
    previous session's connection is left as it was (so an open one
    stays open). *)
Theorem CreateSession_overwrites_colliding_entry
    (up : UpgradeResult) (rnd : RandRead) (w : World)
    (old : TerminalSession) :
  registry_ok w ->
  terminalSessions w !! (GenTerminalSessionId rnd).1 = Some old ->
  let sid := (GenTerminalSessionId rnd).1 in
  exists new w',
    CreateSession up rnd w = ((sid, None), w')
    /\ terminalSessions w' !! sid = Some new
    /\ new <> old
    /\ (forall k, terminalSessions w' !! k <> Some old)
    /\ (forall k, k <> sid -> terminalSessions w' !! k = terminalSessions w !! k)
    /\ (forall c, sockConn old = Some c -> conns w' !! c = conns w !! c).
Proof.
  intros Hok Hold sid.
  destruct (CreateSession_eq up rnd w) as (w' & Hrun & Hreg & _ & Hconns & _).
  destruct (Hok _ _ Hold) as (Hid & Hrcv & Hconn).
  eexists _, w'. split; [exact Hrun|]. fold sid in Hreg, Hid.
  assert (Hne : mkSession sid
                  (match up with
                   | UpgradeOk => Some (nextRef w)
                   | UpgradeErr _ => None
                   end)
                  (S (nextRef w + match up with UpgradeOk => 1 | UpgradeErr _ => 0 end))
                  (nextRef w + match up with UpgradeOk => 1 | UpgradeErr _ => 0 end)
                  (S (S (nextRef w + match up with UpgradeOk => 1 | UpgradeErr _ => 0 end)))
                  (S (S (S (nextRef w + match up with UpgradeOk => 1 | UpgradeErr _ => 0 end))))
                <> old).
  { intros Heq. rewrite <- Heq in Hrcv. simpl in Hrcv. lia. }
  rewrite Hreg. split; [by rewrite lookup_insert_eq|].
  split; [exact Hne|]. split; [|split].
  - intros k Hk. destruct (decide (sid = k)) as [<-|Hk'].
    + rewrite lookup_insert_eq in Hk. by injection Hk.
    + rewrite lookup_insert_ne in Hk by done.
      destruct (Hok _ _ Hk) as (Hidk & _). congruence.
  - intros k Hk. by rewrite lookup_insert_ne.
  - intros c Hc. apply Hconns. by apply Hconn.
Qed.

Lemma CreateSession_overwrites_colliding_entry_witness :
  exists new w',
    CreateSession UpgradeOk fixedRand createdWorld = ((createdId, None), w')
    /\ terminalSessions w' !! createdId = Some new
    /\ new <> createdSession
    /\ (forall k, terminalSessions w' !! k <> Some createdSession)
    /\ (forall k, k <> createdId ->
          terminalSessions w' !! k = terminalSessions createdWorld !! k)
    /\ (forall c, sockConn createdSession = Some c ->
          conns w' !! c = conns createdWorld !! c).
Proof.
  apply (CreateSession_overwrites_colliding_entry
           UpgradeOk fixedRand createdWorld createdSession).
  - apply registry_ok_CreateSession, registry_ok_empty.
  - vm_compute. reflexivity.
Defined.

(** * The pty handler *)

Lemma copy_spec (dst src : list byte) :
  let '(n, dst') := copy dst src in
  n = Nat.min (length dst) (length src)
  /\ length dst' = length dst
  /\ take n dst' = take n src
  /\ drop n dst' = drop n dst.
Proof.
  unfold copy. set (n := Nat.min (length dst) (length src)).
  assert (Hn : length (take n src) = n) by (rewrite length_take; lia).
  split; [done|]. split; [|split].
  - rewrite length_app, length_take, length_drop. lia.
  - rewrite take_app_le by lia. rewrite take_ge by lia. done.
  - rewrite drop_app_ge by lia. rewrite Hn, Nat.sub_diag. done.
Qed.

(** C7, as stated, fails: the session is closing (its orchestrator has
    returned and the connection is closed), and [Read] does not return
    end-of-stream: the caller stays suspended. *)
Lemma Read_on_closed_session_blocks :
  let p := ["000"%byte; "000"%byte] in
  (exists cv, conns closedWorld !! 1 = Some cv /\ websocket.closed cv = true)
  /\ sockConn createdSession = Some 1
  /\ (Read createdSession p closedWorld).1 = Block
  /\ ~ (exists n p', (Read createdSession p closedWorld).1
                     = Ret (n, p', Some EOF)).
Proof.
  vm_compute. split; [eexists; split; reflexivity|].
  split; [reflexivity|]. split; [reflexivity|].
  intros (n & p' & H). discriminate H.
Qed.

(** C7, amended: [Read] is suspended exactly while no chunk is queued
    on the inbound channel. Otherwise it takes the first chunk off the
    channel, copies as many of its bytes as fit into the buffer (the
    rest of the buffer keeps its contents) and returns that count with
    a nil error. It never returns end-of-stream or any other error,
    whatever the state of the connection. *)
Theorem Read_blocks_or_copies_never_eof
    (t : TerminalSession) (p : list byte) (w : World) :
  ((Read t p w).1 = Block <-> default [] (byteChans w !! receiver t) = [])
  /\ (forall m rest, default [] (byteChans w !! receiver t) = m :: rest ->
        exists n p' w',
          Read t p w = (Ret (n, p', None), w')
          /\ n = Nat.min (length p) (length m)
          /\ length p' = length p
          /\ take n p' = take n m
          /\ drop n p' = drop n p
          /\ byteChans w' !! receiver t = Some rest
          /\ conns w' = conns w)
  /\ (forall n p' e, (Read t p w).1 <> Ret (n, p', Some e))
  /\ (forall msg, (Read t p w).1 <> Panic msg).
Proof.
  unfold Read. split; [|split; [|split]].
  - destruct (default [] _) as [|m rest]; [done|].
    destruct (copy p m). simpl. split; discriminate.
  - intros m rest ->. pose proof (copy_spec p m) as Hcp.
    destruct (copy p m) as [n p']. destruct Hcp as (Hn & Hlen & Htk & Hdr).
    eexists n, p', _. split; [reflexivity|].
    repeat split; try done. simpl. by rewrite lookup_insert_eq.
  - intros n p' e. destruct (default [] _) as [|m rest]; [done|].
    destruct (copy p m). simpl. congruence.
  - intros msg. destruct (default [] _) as [|m rest]; [done|].
    by destruct (copy p m).
Qed.

Lemma Read_blocks_or_copies_never_eof_witness :
  exists n p' w',
    Read createdSession ["000"%byte; "000"%byte] pendingWorld
    = (Ret (n, p', None), w')
    /\ n = Nat.min 2 3
    /\ length p' = 2
    /\ take n p' = take n ["a"%byte; "b"%byte; "c"%byte]
    /\ drop n p' = drop n ["000"%byte; "000"%byte]
    /\ byteChans w' !! receiver createdSession = Some []
    /\ conns w' = conns pendingWorld.
Proof.
  apply (proj1 (proj2 (Read_blocks_or_copies_never_eof
                         createdSession ["000"%byte; "000"%byte] pendingWorld))
           ["a"%byte; "b"%byte; "c"%byte] []).
  vm_compute. reflexivity.
Defined.

(** C9, as stated, fails: the session is closing and [Next] does not
    signal end-of-events (a nil result): the caller stays suspended. *)
Lemma Next_on_closed_session_blocks :
  (exists cv, conns closedWorld !! 1 = Some cv /\ websocket.closed cv = true)
  /\ sockConn createdSession = Some 1
  /\ (Next createdSession closedWorld).1 = Block
  /\ (Next createdSession closedWorld).1 <> Ret None.
Proof.
  vm_compute. split; [eexists; split; reflexivity|].
  split; [reflexivity|]. split; [reflexivity | discriminate].
Qed.

(** C9, amended: [Next] is suspended exactly while no resize event is
    queued on the size channel; when one is, it takes the first off the
    channel and returns it. It never signals end-of-events, whatever
    the state of the connection. *)
Theorem Next_blocks_or_returns_event (t : TerminalSession) (w : World) :
  ((Next t w).1 = Block <-> default [] (sizeChans w !! sizeChan t) = [])
  /\ (forall size rest,
        default [] (sizeChans w !! sizeChan t) = size :: rest ->
        exists w',
          Next t w = (Ret (Some size), w')
          /\ sizeChans w' !! sizeChan t = Some rest
          /\ conns w' = conns w)
  /\ (Next t w).1 <> Ret None
  /\ (forall msg, (Next t w).1 <> Panic msg).
Proof.
  unfold Next. split; [|split; [|split]].
  - destruct (default [] _) as [|size rest]; [done|]. simpl. split; discriminate.
  - intros size rest ->. eexists. split; [reflexivity|].
    simpl. by rewrite lookup_insert_eq.
  - by destruct (default [] _).
  - intros msg. by destruct (default [] _).
Qed.

Lemma Next_blocks_or_returns_event_witness :
  exists w',
    Next createdSession resizedWorld = (Ret (Some (mkSize 80 24)), w')
    /\ sizeChans w' !! sizeChan createdSession = Some []
    /\ conns w' = conns resizedWorld.
Proof.
  apply (proj1 (proj2 (Next_blocks_or_returns_event
                         createdSession resizedWorld)) (mkSize 80 24) []).
  vm_compute. reflexivity.
Defined.

(** C8, as stated, fails in its last clause: the client goes away while
    bash streams, the [Write] that follows fails with the socket's
    error, the collaborator's stream call returns nil, and [execPod]
    hands nil to the orchestrator, which logs a normal end. The error of
    the failed [Write] reaches the collaborator and goes no further. *)
Lemma Write_error_stops_at_collaborator :
  let p := ["l"%byte; "s"%byte] in
  let atWrite :=
    netDown 1 "broken pipe"
      (emit (EvStreaming ["bash"]) (emit (EvExec ["bash"]) createdWorld)) in
  (Write createdSession p atWrite).1 = Ret (0, Some "broken pipe")
  /\ (execPod lostWriteExec "app" "web-1" "default" ["bash"]
         createdSession createdWorld).1 = Done None
  /\ trace (ExecTerminal lostWriteExec "app" "web-1" "default"
              createdId createdWorld).2
     = [EvExec ["bash"]; EvStreaming ["bash"];
        EvLog "terminal was closed" None; EvClose (Some 1)]
  /\ ~ ((execPod lostWriteExec "app" "web-1" "default" ["bash"]
           createdSession createdWorld).1 = Done (Some "broken pipe")).
Proof.
  vm_compute.
  split; [|split; [|split]];
    [reflexivity | reflexivity | reflexivity | discriminate].
Qed.

(** C8, amended: on a session with a connection, [Write] sends the
    bytes as one text frame and returns their count when the socket
    write succeeds. When the socket write fails, because the connection
    was closed on this end or because the transport is broken, it
    returns count 0 and the socket's error to its caller, sends
    nothing, and neither panics nor suspends. The bridge carries that
    error no further: what [execPod] hands to the orchestrator is what
    the collaborator's stream call returns, whatever the [Write] calls
    of the stream returned. *)
Theorem Write_one_frame_or_error
    (t : TerminalSession) (p : list byte) (c : nat) (cv : websocket.Conn)
    (w : World) :
  readers_ok w ->
  sockConn t = Some c ->
  conns w !! c = Some cv ->
  (websocket.closed cv = false -> websocket.broken cv = None ->
     exists w' cv',
       Write t p w = (Ret (length p, None), w')
       /\ conns w' !! c = Some cv'
       /\ websocket.outbox cv'
          = websocket.outbox cv ++ [(websocket.TextMessage, p)])
  /\ (websocket.closed cv = true ->
        exists w',
          Write t p w = (Ret (0, Some websocket.errClosed), w')
          /\ conns w' !! c = Some cv)
  /\ (forall e, websocket.closed cv = false -> websocket.broken cv = Some e ->
        exists w',
          Write t p w = (Ret (0, Some e), w')
          /\ conns w' !! c = Some cv)
  /\ (forall rx container pod namespace cmd,
        exists w',
          execPod rx container pod namespace cmd t w
          = (Done (execResult rx (execRequest container pod namespace cmd)),
             w')).
Proof.
  intros Hok Hc Hcv. split; [|split; [|split]].
  - intros Hcl Hbr. unfold Write, withConn, websocket.WriteMessage.
    rewrite Hc, Hcv, Hcl, Hbr. eexists _, _. split; [reflexivity|].
    simpl. by rewrite lookup_insert_eq.
  - intros Hcl. unfold Write, withConn, websocket.WriteMessage.
    rewrite Hc, Hcv, Hcl. eexists. split; [reflexivity|]. simpl.
    by rewrite lookup_insert_eq.
  - intros e Hcl Hbr. unfold Write, withConn, websocket.WriteMessage.
    rewrite Hc, Hcv, Hcl, Hbr. eexists. split; [reflexivity|]. simpl.
    by rewrite lookup_insert_eq.
  - intros rx container pod namespace cmd.
    destruct (execPod_ok rx container pod namespace cmd t w Hok)
      as (w' & evs & Hrun & _); [exists c; eauto |].
    exists w'. exact Hrun.
Qed.

Lemma Write_one_frame_or_error_witness :
  let p := ["l"%byte; "s"%byte] in
  exists w',
    Write createdSession p closedWorld
    = (Ret (0, Some websocket.errClosed), w')
    /\ conns w' !! 1 = Some (websocket.mkConn true None [] []).
Proof.
  intros p.
  assert (Hok : readers_ok closedWorld).
  { apply (readers_ok_single createdId); [vm_compute; reflexivity|].
    exists 1. split; [vm_compute; reflexivity|].
    vm_compute. eexists. reflexivity. }
  assert (Hc : sockConn createdSession = Some 1) by (vm_compute; reflexivity).
  assert (Hcv : conns closedWorld !! 1
                = Some (websocket.mkConn true None [] []))
    by (vm_compute; reflexivity).
  apply (proj1 (proj2 (Write_one_frame_or_error
                         createdSession p 1
                         (websocket.mkConn true None [] []) closedWorld
                         Hok Hc Hcv))).
  reflexivity.
Defined.

(** * Inbound bytes *)

Section Inbound.

Variable ch : nat.

Lemma inbound_snoc (evs : list Event) (ev : Event) :
  inbound ch (evs ++ [ev])
  = inbound ch evs
    ++ match ev with
       | EvInbound ch' m => if decide (ch' = ch) then m else []
       | _ => []
       end.
Proof.
  unfold inbound. rewrite omap_app, join_app. f_equal.
  destruct ev; simpl; try done.
  destruct (decide _); simpl; [by rewrite app_nil_r | done].
Qed.

Lemma taken_snoc (evs : list Event) (ev : Event) :
  taken ch (evs ++ [ev])
  = taken ch evs
    ++ match ev with
       | EvStdin ch' m _ => if decide (ch' = ch) then m else []
       | _ => []
       end.
Proof.
  unfold taken. rewrite omap_app, join_app. f_equal.
  destruct ev; simpl; try done.
  destruct (decide _); simpl; [by rewrite app_nil_r | done].
Qed.

Lemma balanced_same (w w' : World) :
  trace w' = trace w -> byteChans w' = byteChans w ->
  balanced ch w -> balanced ch w'.
Proof. unfold balanced, queued. by intros -> ->. Qed.

Lemma balanced_log (msg : string) (e : option error) (w : World) :
  balanced ch w -> balanced ch (emit (EvLog msg e) w).
Proof.
  unfold balanced, queued. simpl. intros Hb.
  by rewrite inbound_snoc, taken_snoc, !app_nil_r.
Qed.

Lemma Read_balanced (t : TerminalSession) (p : list byte) (w : World) :
  balanced ch w -> balanced ch (Read t p w).2.
Proof.
  unfold Read. destruct (default [] _) as [|m rest] eqn:Hq; [done|].
  destruct (copy p m) as [n p']. unfold balanced, queued. simpl.
  rewrite inbound_snoc, taken_snoc, app_nil_r. intros Hb.
  destruct (decide (receiver t = ch)) as [<-|Hne].
  - rewrite lookup_insert_eq. rewrite Hq in Hb. simpl in *.
    by rewrite <- app_assoc.
  - rewrite lookup_insert_ne by done. by rewrite app_nil_r.
Qed.

Lemma readFromWebTerminal_balanced (sid : string) (w : World) :
  balanced ch w -> balanced ch (readFromWebTerminal sid w).2.
Proof.
  unfold readFromWebTerminal, withConn. intros Hb.
  destruct (decide _); [|done].
  destruct (default [] _) eqn:Hq; [|done].
  destruct (sockConn _) as [c|]; [|done].
  destruct (conns w !! c) as [cv|]; [|done].
  destruct (websocket.ReadMessage cv) as [[[m|e0] cv']|]; [| |done]; simpl.
  - revert Hb. unfold balanced, queued. simpl.
    rewrite inbound_snoc, taken_snoc, app_nil_r.
    set (rc := receiver (lookupSession sid w)) in *. intros Hb.
    destruct (decide (rc = ch)) as [<-|Hne].
    + rewrite lookup_insert_eq. rewrite Hq in Hb. simpl in *.
      rewrite app_nil_r in *. by rewrite Hb.
    + rewrite lookup_insert_ne by done. by rewrite app_nil_r.
  - eapply balanced_same; [..|apply balanced_log, balanced_log];
      [done | done |]. by eapply balanced_same.
Qed.

Lemma netRecv_balanced (c : nat) (m : list byte) (w : World) :
  balanced ch w -> balanced ch (netRecv c m w).
Proof.
  unfold netRecv. destruct (conns w !! c) as [cv|]; [|done].
  destruct (websocket.closed cv); [done|].
  by destruct (websocket.broken cv).
Qed.

Lemma netDown_balanced (c : nat) (e : error) (w : World) :
  balanced ch w -> balanced ch (netDown c e w).
Proof.
  unfold netDown. destruct (conns w !! c) as [cv|]; [|done].
  by destruct (websocket.broken cv).
Qed.

Lemma Write_balanced (t : TerminalSession) (p : list byte) (w : World) :
  balanced ch w -> balanced ch (Write t p w).2.
Proof.
  unfold Write, withConn. destruct (sockConn t) as [c|]; [|done].
  destruct (conns w !! c) as [cv|]; [|done].
  by destruct (websocket.WriteMessage _ p cv) as [[e|] cv'].
Qed.

Lemma Next_balanced (t : TerminalSession) (w : World) :
  balanced ch w -> balanced ch (Next t w).2.
Proof. unfold Next. by destruct (default [] _). Qed.

Lemma streamAction_balanced (t : TerminalSession) (a : Action) (w : World) :
  balanced ch w -> balanced ch (streamAction t a w).2.
Proof.
  destruct a; simpl; rewrite ?forget_snd.
  - apply readFromWebTerminal_balanced.
  - apply netRecv_balanced.
  - apply netDown_balanced.
  - apply Read_balanced.
  - apply Write_balanced.
  - apply Next_balanced.
Qed.

(** Whatever the schedule of a stream, the inbound channel conserves
    bytes and their order: the bytes placed on it are the bytes of the
    chunks taken off by [Read], followed by those still queued. *)
Lemma runStream_balanced (t : TerminalSession) (sched : list Action)
    (w : World) :
  balanced ch w -> balanced ch (runStream t sched w).2.
Proof.
  revert w. induction sched as [|a rest IH]; intros w Hb; [done|]. simpl.
  pose proof (streamAction_balanced t a w Hb) as Hb'.
  destruct (streamAction t a w) as [[[]|msg|] w1]; simpl in *;
    [by apply IH | done | by apply IH].
Qed.

Lemma taken_cons (ev : Event) (evs : list Event) :
  taken ch (ev :: evs)
  = match ev with
    | EvStdin ch' m _ => if decide (ch' = ch) then m else []
    | _ => []
    end ++ taken ch evs.
Proof.
  unfold taken. destruct ev; simpl; try done. by destruct (decide _).
Qed.

Lemma delivered_cons (ev : Event) (evs : list Event) :
  delivered ch (ev :: evs)
  = match ev with
    | EvStdin ch' m n => if decide (ch' = ch) then take n m else []
    | _ => []
    end ++ delivered ch evs.
Proof.
  unfold delivered. destruct ev; simpl; try done. by destruct (decide _).
Qed.

(** When every [Read] had room for the chunk it took, what it handed
    over is all of what it took. *)
Lemma delivered_allFit (evs : list Event) :
  allFit ch evs -> delivered ch evs = taken ch evs.
Proof.
  unfold allFit. induction 1 as [|ev evs Hev _ IH]; [done|].
  rewrite taken_cons, delivered_cons, IH. f_equal.
  destruct ev; try done.
  destruct (decide _) as [Heq|]; [|done].
  rewrite (Hev Heq). apply firstn_all.
Qed.

(** X20: whatever the schedule of a stream, if every [Read] had room
    for the chunk it took, the bytes placed on an inbound channel are
    the bytes handed to the collaborator followed by the bytes still
    queued: nothing is lost or reordered on the way. *)
Lemma runStream_fifo_when_chunks_fit (t : TerminalSession)
    (sched : list Action) (w : World) :
  balanced ch w ->
  let w' := (runStream t sched w).2 in
  allFit ch (trace w') ->
  inbound ch (trace w') = delivered ch (trace w') ++ queued ch w'.
Proof.
  intros Hb w' Hfit. rewrite delivered_allFit by done.
  by apply runStream_balanced.
Qed.

End Inbound.

(** C6 (the code departs from it): the client's frame "abc" is placed
    on the inbound channel and the collaborator reads with a two-byte
    buffer. The first [Read] hands over "ab" and takes the whole chunk
    off the channel; the second finds the channel empty. The byte "c"
    reaches no [Read]. *)
Theorem Read_loses_tail_of_long_chunk :
  let w' := (ExecTerminal pasteExec "app" "web-1" "default"
               createdId createdWorld).2 in
  let ch := receiver createdSession in
  inbound ch (trace w') = ["a"%byte; "b"%byte; "c"%byte]
  /\ taken ch (trace w') = ["a"%byte; "b"%byte; "c"%byte]
  /\ delivered ch (trace w') = ["a"%byte; "b"%byte]
  /\ queued ch w' = []
  /\ (exists cv, conns w' !! 1 = Some cv /\ websocket.inbox cv = [])
  /\ delivered ch (trace w') <> inbound ch (trace w').
Proof.
  vm_compute. repeat split; try discriminate.
  eexists. split; reflexivity.
Qed.

(** * Session identifiers, further *)

Lemma hexDigits_lower (v : byte) :
  lowerHex (hexDigit (N.shiftr (Byte.to_N v) 4)) = true
  /\ lowerHex (hexDigit (N.land (Byte.to_N v) 15)) = true.
Proof. destruct v; vm_compute; split; reflexivity. Qed.

Lemma hexDecode_digits (v : byte) (rest : list ascii) :
  hexDecode (hexDigit (N.shiftr (Byte.to_N v) 4)
             :: hexDigit (N.land (Byte.to_N v) 15) :: rest)
  = v :: hexDecode rest.
Proof. destruct v; reflexivity. Qed.

Lemma hexEncode_ascii (src : list byte) :
  String.list_ascii_of_string (hexEncode src)
  = flat_map (fun v => let n := Byte.to_N v in
                       [hexDigit (N.shiftr n 4); hexDigit (N.land n 15)])
             src.
Proof. unfold hexEncode. apply String.list_ascii_of_string_of_list_ascii. Qed.

Lemma hexDecode_hexEncode (src : list byte) :
  hexDecode (String.list_ascii_of_string (hexEncode src)) = src.
Proof.
  rewrite hexEncode_ascii.
  set (F := fun v : byte => _). induction src as [|v src IH]; [done|].
  change (hexDecode (hexDigit (N.shiftr (Byte.to_N v) 4)
                     :: hexDigit (N.land (Byte.to_N v) 15)
                     :: flat_map F src) = v :: src).
  rewrite hexDecode_digits. by rewrite IH.
Qed.

Lemma hexEncode_length (src : list byte) :
  length (String.list_ascii_of_string (hexEncode src)) = 2 * length src.
Proof.
  rewrite hexEncode_ascii.
  set (F := fun v : byte => _). induction src as [|v src IH]; [done|].
  change (length (hexDigit (N.shiftr (Byte.to_N v) 4)
                  :: hexDigit (N.land (Byte.to_N v) 15)
                  :: flat_map F src) = 2 * length (v :: src)).
  cbn [length]. rewrite IH. lia.
Qed.

Lemma hexEncode_lower (src : list byte) :
  Forall (fun c => lowerHex c = true)
         (String.list_ascii_of_string (hexEncode src)).
Proof.
  rewrite hexEncode_ascii.
  set (F := fun v : byte => _). induction src as [|v src IH]; [constructor|].
  change (Forall (fun c => lowerHex c = true)
            (hexDigit (N.shiftr (Byte.to_N v) 4)
             :: hexDigit (N.land (Byte.to_N v) 15)
             :: flat_map F src)).
  destruct (hexDigits_lower v) as [Hhi Hlo]. by repeat constructor.
Qed.

(** X1: whenever the random source delivers, the identifier is 32
    characters long, every character is one of 0-9 a-f, and no error is
    returned; the identifier is empty only when the source fails. *)
Theorem GenTerminalSessionId_shape (r : RandRead) :
  match r with
  | RandOk _ =>
      let '(sid, err) := GenTerminalSessionId r in
      err = None
      /\ length (String.list_ascii_of_string sid) = 32
      /\ Forall (fun c => lowerHex c = true) (String.list_ascii_of_string sid)
      /\ sid <> ""
  | RandErr e => GenTerminalSessionId r = ("", Some e)
  end.
Proof.
  destruct r as [fill|e]; [|done]. cbn [GenTerminalSessionId].
  split; [done|]. split; [|split].
  - rewrite hexEncode_length, length_map, length_seq. done.
  - apply hexEncode_lower.
  - intros Heq.
    pose proof (hexEncode_length (map fill (seq 0 16))) as Hlen.
    rewrite Heq in Hlen. rewrite length_map, length_seq in Hlen.
    simpl in Hlen. lia.
Qed.

(** X2: the identifier determines the sixteen random bytes it was made
    from: two runs of the generator that return the same identifier read
    the same bytes, so different bytes never collide. *)
Theorem GenTerminalSessionId_injective (f g : nat -> byte) :
  (GenTerminalSessionId (RandOk f)).1 = (GenTerminalSessionId (RandOk g)).1 ->
  forall i, i < 16 -> f i = g i.
Proof.
  cbn [GenTerminalSessionId fst]. intros Heq i Hi.
  assert (Hmap : map f (seq 0 16) = map g (seq 0 16)).
  { rewrite <- (hexDecode_hexEncode (map f (seq 0 16))),
            <- (hexDecode_hexEncode (map g (seq 0 16))).
    by rewrite Heq. }
  assert (Hlk : map f (seq 0 16) !! i = map g (seq 0 16) !! i) by by rewrite Hmap.
  rewrite !list_lookup_fmap, lookup_seq_lt in Hlk by done.
  by injection Hlk.
Qed.

Lemma GenTerminalSessionId_injective_witness :
  (fun i : nat => if (i <? 16)%nat then "165"%byte else "000"%byte) 3
  = (fun _ : nat => "165"%byte) 3.
Proof.
  refine (GenTerminalSessionId_injective
            (fun i => if (i <? 16)%nat then "165"%byte else "000"%byte)
            (fun _ => "165"%byte) _ 3 _).
  - vm_compute. reflexivity.
  - lia.
Defined.

(** * Session creation, further *)

Lemma CreateSession_facts (up : UpgradeResult) (rnd : RandRead)
    (w : World) :
  let r := CreateSession up rnd w in
  let s := lookupSession r.1.1 r.2 in
  r.1.2 = None
  /\ r.1.1 = (GenTerminalSessionId rnd).1
  /\ terminalSessions r.2 !! r.1.1 = Some s
  /\ id s = r.1.1
  /\ (forall p, (Read s p r.2).1 = Block)
  /\ (Next s r.2).1 = Block
  /\ (up = UpgradeOk ->
        exists c, sockConn s = Some c /\ conns r.2 !! c = Some newConn)
  /\ (forall k, k <> r.1.1 ->
        terminalSessions r.2 !! k = terminalSessions w !! k)
  /\ (terminalSessions w !! r.1.1 = None ->
        size (terminalSessions r.2) = S (size (terminalSessions w))).
Proof.
  unfold CreateSession, lookupSession.
  destruct (GenTerminalSessionId rnd) as [sid err].
  destruct up as [|e]; cbn -[Read Next];
    rewrite lookup_insert_eq; cbn -[Read Next];
    (repeat split; try done;
     [ intros p; unfold Read; cbn;
       rewrite lookup_insert_ne by lia; by rewrite lookup_insert_eq
     | unfold Next; cbn; by rewrite lookup_insert_eq
     | ..]).
  - intros _. eexists. split; [done|]. by rewrite lookup_insert_eq.
  - intros k Hk. by rewrite lookup_insert_ne.
  - intros Hfresh. by apply map_size_insert_None.
  - intros k Hk. by rewrite lookup_insert_ne.
  - intros Hfresh. by apply map_size_insert_None.
Qed.

(** X3: [CreateSession] never reports an error; the id it returns is a
    key of the registry afterward and maps to a session carrying that
    id; the channels of that session are empty, so [Read] and [Next] on
    it are suspended; after a successful upgrade its connection is open
    with nothing read or written. Every other key is as before, and
    with an id that was not a key the registry has one entry more. *)
Theorem CreateSession_registers (up : UpgradeResult) (rnd : RandRead)
    (w : World) :
  let r := CreateSession up rnd w in
  let s := lookupSession r.1.1 r.2 in
  r.1.2 = None
  /\ r.1.1 = (GenTerminalSessionId rnd).1
  /\ terminalSessions r.2 !! r.1.1 = Some s
  /\ id s = r.1.1
  /\ (forall p, (Read s p r.2).1 = Block)
  /\ (Next s r.2).1 = Block
  /\ (up = UpgradeOk ->
        exists c, sockConn s = Some c /\ conns r.2 !! c = Some newConn)
  /\ (forall k, k <> r.1.1 ->
        terminalSessions r.2 !! k = terminalSessions w !! k)
  /\ (terminalSessions w !! r.1.1 = None ->
        size (terminalSessions r.2) = S (size (terminalSessions w))).
Proof.
  intros r s.
  destruct (CreateSession_facts up rnd w)
    as (Herr & Hid & Hreg & Hids & Hread & Hnext & Hconn & Hothers & Hsize).
  split; [exact Herr|]. split; [exact Hid|]. split; [exact Hreg|].
  split; [exact Hids|]. split; [exact Hread|]. split; [exact Hnext|].
  split; [exact Hconn|]. split; [exact Hothers | exact Hsize].
Qed.

Lemma CreateSession_registers_witness :
  exists c, sockConn (lookupSession createdId createdWorld) = Some c
            /\ conns createdWorld !! c = Some newConn.
Proof.
  apply (proj1 (proj2 (proj2 (proj2 (proj2 (proj2 (proj2
           (CreateSession_registers UpgradeOk fixedRand emptyWorld)))))))).
  reflexivity.
Defined.

(** X4: [CreateSession] leaves everything that was allocated before it
    alone: connections, pending chunks and resize events keep their
    state, no reader loop is started or stopped, and the trace grows by
    the upgrade's log line only. *)
Theorem CreateSession_frame (up : UpgradeResult) (rnd : RandRead) (w : World) :
  let w' := (CreateSession up rnd w).2 in
  (forall r, r < nextRef w ->
     conns w' !! r = conns w !! r
     /\ byteChans w' !! r = byteChans w !! r
     /\ sizeChans w' !! r = sizeChans w !! r)
  /\ nextRef w < nextRef w'
  /\ readers w' = readers w
  /\ trace w' = trace w ++ match up with
                           | UpgradeOk => []
                           | UpgradeErr e => [EvLog "upgrade:" (Some e)]
                           end.
Proof.
  unfold CreateSession. destruct (GenTerminalSessionId rnd) as [sid err].
  destruct up as [|e]; cbn.
  - split; [|split; [lia|split; [done | by rewrite app_nil_r]]].
    intros r Hr. rewrite !lookup_insert_ne by lia. done.
  - split; [|split; [lia|done]].
    intros r Hr. rewrite !lookup_insert_ne by lia. done.
Qed.

Lemma CreateSession_frame_witness :
  conns (CreateSession UpgradeOk fixedRand createdWorld).2 !! 1
  = conns createdWorld !! 1
  /\ byteChans (CreateSession UpgradeOk fixedRand createdWorld).2 !! 1
     = byteChans createdWorld !! 1
  /\ sizeChans (CreateSession UpgradeOk fixedRand createdWorld).2 !! 1
     = sizeChans createdWorld !! 1.
Proof.
  apply (proj1 (CreateSession_frame UpgradeOk fixedRand createdWorld) 1).
  vm_compute. lia.
Defined.

(** * What a run leaves alone *)

Section Apart.

Variable own : option nat.

Lemma apart_refl (w : World) : apart own w w.
Proof. by split. Qed.

Lemma apart_trans (w1 w2 w3 : World) :
  apart own w1 w2 -> apart own w2 w3 -> apart own w1 w3.
Proof.
  intros [Hs1 Hn1 Hc1 Ho1] [Hs2 Hn2 Hc2 Ho2]. split.
  - congruence.
  - congruence.
  - intros c. by rewrite Hc2, Hc1.
  - intros c Hc. by rewrite Ho2, Ho1.
Qed.

Lemma apart_then (w w1 w2 : World) :
  apart own w1 w2 -> apart own w w1 -> apart own w w2.
Proof. intros H12 H01. by apply (apart_trans w w1 w2). Qed.

Lemma apart_emit (ev : Event) (w : World) : apart own w (emit ev w).
Proof. by split. Qed.

Lemma apart_setByteChan (ch : nat) (q : list (list byte)) (w : World) :
  apart own w (setByteChan ch q w).
Proof. by split. Qed.

Lemma apart_setSizeChan (ch : nat) (q : list TerminalSize) (w : World) :
  apart own w (setSizeChan ch q w).
Proof. by split. Qed.

Lemma apart_setReaders (f : gset string -> gset string) (w : World) :
  apart own w (setReaders f w).
Proof. by split. Qed.

(** An update of an existing connection that keeps its closed flag and
    the frames written to it. *)
Lemma apart_setConn (c : nat) (cv cv' : websocket.Conn) (w : World) :
  conns w !! c = Some cv ->
  websocket.closed cv' = websocket.closed cv ->
  (own <> Some c -> websocket.outbox cv' = websocket.outbox cv) ->
  apart own w (setConn c cv' w).
Proof.
  intros Hc Hcl Hout. split; simpl; [done | done | |].
  - intros c0. destruct (decide (c = c0)) as [<-|Hne].
    + rewrite lookup_insert_eq, Hc. simpl. by rewrite Hcl.
    + by rewrite lookup_insert_ne.
  - intros c0 Hown. destruct (decide (c = c0)) as [<-|Hne].
    + rewrite lookup_insert_eq, Hc. simpl. by rewrite Hout.
    + by rewrite lookup_insert_ne.
Qed.

Lemma Read_apart (t : TerminalSession) (p : list byte) (w : World) :
  apart own w (Read t p w).2.
Proof.
  unfold Read. destruct (default [] _) as [|m rest]; [apply apart_refl|].
  destruct (copy p m) as [n p']. simpl.
  eapply apart_then; [apply apart_emit | apply apart_setByteChan].
Qed.

Lemma Next_apart (t : TerminalSession) (w : World) : apart own w (Next t w).2.
Proof.
  unfold Next. destruct (default [] _); [apply apart_refl|].
  apply apart_setSizeChan.
Qed.

Lemma Write_apart (t : TerminalSession) (p : list byte) (w : World) :
  sockConn t = own -> apart own w (Write t p w).2.
Proof.
  intros Hown. unfold Write, withConn, websocket.WriteMessage.
  destruct (sockConn t) as [c|]; [|apply apart_refl].
  destruct (conns w !! c) as [cv|] eqn:Hcv; [|apply apart_refl].
  destruct (websocket.closed cv) eqn:Hcl; simpl.
  { by apply (apart_setConn c cv). }
  destruct (websocket.broken cv); simpl.
  { by apply (apart_setConn c cv). }
  apply (apart_setConn c cv); [done | done |]. intros Hne. by destruct Hne.
Qed.

Lemma readFromWebTerminal_apart (sid : string) (w : World) :
  apart own w (readFromWebTerminal sid w).2.
Proof.
  unfold readFromWebTerminal, withConn, websocket.ReadMessage.
  destruct (decide _); [|apply apart_refl].
  destruct (default [] _); [|apply apart_refl].
  destruct (sockConn _) as [c|]; [|apply apart_refl].
  destruct (conns w !! c) as [cv|] eqn:Hcv; [|apply apart_refl].
  destruct (websocket.closed cv) eqn:Hcl; simpl.
  { eapply apart_then; [apply apart_setReaders|].
    eapply apart_then; [apply apart_emit|].
    eapply apart_then; [apply apart_emit|].
    by apply (apart_setConn c cv). }
  destruct (websocket.inbox cv) as [|m rest]; simpl.
  - destruct (websocket.broken cv); simpl; [|apply apart_refl].
    eapply apart_then; [apply apart_setReaders|].
    eapply apart_then; [apply apart_emit|].
    eapply apart_then; [apply apart_emit|].
    by apply (apart_setConn c cv).
  - eapply apart_then; [apply apart_emit|].
    eapply apart_then; [apply apart_setByteChan|].
    by apply (apart_setConn c cv).
Qed.

Lemma netRecv_apart (c : nat) (m : list byte) (w : World) :
  apart own w (netRecv c m w).
Proof.
  unfold netRecv. destruct (conns w !! c) as [cv|] eqn:Hcv; [|apply apart_refl].
  destruct (websocket.closed cv) eqn:Hcl; [apply apart_refl|].
  destruct (websocket.broken cv); [apply apart_refl|].
  by apply (apart_setConn c cv).
Qed.

Lemma netDown_apart (c : nat) (e : error) (w : World) :
  apart own w (netDown c e w).
Proof.
  unfold netDown. destruct (conns w !! c) as [cv|] eqn:Hcv; [|apply apart_refl].
  destruct (websocket.broken cv); [apply apart_refl|].
  by apply (apart_setConn c cv).
Qed.

Lemma streamAction_apart (t : TerminalSession) (a : Action) (w : World) :
  sockConn t = own -> apart own w (streamAction t a w).2.
Proof.
  intros Hown. destruct a; simpl; rewrite ?forget_snd.
  - apply readFromWebTerminal_apart.
  - apply netRecv_apart.
  - apply netDown_apart.
  - apply Read_apart.
  - by apply Write_apart.
  - apply Next_apart.
Qed.

Lemma runStream_apart (t : TerminalSession) (sched : list Action) (w : World) :
  sockConn t = own -> apart own w (runStream t sched w).2.
Proof.
  intros Hown. revert w. induction sched as [|a rest IH]; intros w; simpl.
  - apply apart_refl.
  - pose proof (streamAction_apart t a w Hown) as Hap.
    destruct (streamAction t a w) as [[[]|msg|] w1]; simpl in *;
      [by eapply apart_trans | done | by eapply apart_trans].
Qed.

Lemma execPod_apart rx container pod namespace cmd (t : TerminalSession)
    (w : World) :
  sockConn t = own ->
  apart own w (execPod rx container pod namespace cmd t w).2.
Proof.
  intros Hown. unfold execPod.
  destruct (NewSPDYExecutor rx _); [apply apart_emit|].
  destruct (Stream rx _) as [e|sched ret]; [apply apart_emit|].
  pose proof (runStream_apart t sched
                (emit (EvStreaming cmd) (emit (EvExec cmd) w)) Hown) as Hap.
  destruct (runStream t sched _) as [[[]|msg] w']; simpl in *;
    (eapply apart_then; [exact Hap|]);
    (eapply apart_then; apply apart_emit).
Qed.

Lemma ExecTerminal_loop_apart rx container pod namespace sessionId
    (candidates : list string) (err : option error) (w : World) :
  sockConn (lookupSession sessionId w) = own ->
  apart own w (ExecTerminal_loop rx container pod namespace sessionId
                 candidates err w).2.
Proof.
  revert err w. induction candidates as [|shell rest IH]; intros err w Hown.
  { apply apart_refl. }
  simpl.
  pose proof (execPod_apart rx container pod namespace [shell]
                (lookupSession sessionId w) w Hown) as Hap.
  destruct (execPod rx container pod namespace [shell] _ w)
    as [[[e|]|msg] w1]; simpl in *; [|done..].
  eapply apart_then; [apply IH|].
  - unfold lookupSession in *. simpl. by rewrite (apart_sessions _ _ _ Hap).
  - eapply apart_then; [apply apart_emit | exact Hap].
Qed.

End Apart.

Lemma Close_touches_own_only (t : TerminalSession) (w : World) :
  let w' := (Close t w).2 in
  terminalSessions w' = terminalSessions w
  /\ nextRef w' = nextRef w
  /\ (forall c, is_Some (conns w' !! c) <-> is_Some (conns w !! c))
  /\ (forall c, sockConn t <> Some c -> conns w' !! c = conns w !! c)
  /\ (forall c, websocket.outbox <$> conns w' !! c
                = websocket.outbox <$> conns w !! c).
Proof.
  unfold Close, withConn. destruct (sockConn t) as [c|]; [|done]. simpl.
  destruct (conns w !! c) as [cv|] eqn:Hcv; [|done].
  assert (Hdom : forall cv' c0,
             is_Some (<[c := cv']> (conns w) !! c0) <-> is_Some (conns w !! c0)).
  { intros cv' c0. destruct (decide (c = c0)) as [<-|Hne].
    - rewrite lookup_insert_eq, Hcv. split; eauto.
    - by rewrite lookup_insert_ne. }
  assert (Hother : forall cv' c0, Some c <> Some c0 ->
             <[c := cv']> (conns w) !! c0 = conns w !! c0).
  { intros cv' c0 Hne. rewrite lookup_insert_ne; [done | congruence]. }
  assert (Hout : forall cv' c0, websocket.outbox cv' = websocket.outbox cv ->
             websocket.outbox <$> <[c := cv']> (conns w) !! c0
             = websocket.outbox <$> conns w !! c0).
  { intros cv' c0 Heq. destruct (decide (c = c0)) as [<-|Hne].
    - rewrite lookup_insert_eq, Hcv. simpl. by rewrite Heq.
    - by rewrite lookup_insert_ne. }
  unfold websocket.Close. destruct (websocket.closed cv); simpl;
    repeat split; try apply Hdom; try apply Hother;
    try (intros c0; by apply Hout); done.
Qed.

Lemma ExecTerminal_apart_facts
    (rx : RemoteExec) (container pod namespace sessionId : string)
    (w : World) :
  let own := sockConn (lookupSession sessionId w) in
  let w' := (ExecTerminal rx container pod namespace sessionId w).2 in
  terminalSessions w' = terminalSessions w
  /\ nextRef w' = nextRef w
  /\ (forall c, is_Some (conns w' !! c) <-> is_Some (conns w !! c))
  /\ (forall c, own <> Some c ->
        websocket.closed <$> conns w' !! c = websocket.closed <$> conns w !! c
        /\ websocket.outbox <$> conns w' !! c
           = websocket.outbox <$> conns w !! c).
Proof.
  intros own. unfold ExecTerminal.
  set (w0 := setReaders (fun r => {[sessionId]} ∪ r) w).
  pose proof (ExecTerminal_loop_apart own rx container pod namespace
                sessionId shells None w0 eq_refl) as Hap.
  assert (Hdom : forall w1, apart own w0 w1 ->
            forall c, is_Some (conns w1 !! c) <-> is_Some (conns w !! c)).
  { intros w1 Hw1 c. pose proof (apart_closed _ _ _ Hw1 c) as Hc.
    change (conns w0) with (conns w) in Hc.
    destruct (conns w1 !! c), (conns w !! c); simpl in Hc;
      split; intros [? ?]; try done; eauto. }
  destruct (ExecTerminal_loop _ _ _ _ _ _ _ _) as [[err|msg] w1]; simpl in *.
  - set (w2 := match err with
               | Some e => emit (EvLog "ExecTerminal err" (Some e)) w1
               | None => emit (EvLog "terminal was closed" None) w1
               end).
    assert (Hap2 : apart own w0 w2).
    { eapply apart_then; [|exact Hap]. unfold w2. destruct err; apply apart_emit. }
    destruct (Close_touches_own_only (lookupSession sessionId w) w2)
      as (Hs & Hn & Hd & Hoth & Hout).
    assert (Hgoal :
      terminalSessions (Close (lookupSession sessionId w) w2).2
      = terminalSessions w
      /\ nextRef (Close (lookupSession sessionId w) w2).2 = nextRef w
      /\ (forall c, is_Some (conns (Close (lookupSession sessionId w) w2).2 !! c)
                    <-> is_Some (conns w !! c))
      /\ (forall c, own <> Some c ->
            websocket.closed <$> conns (Close (lookupSession sessionId w) w2).2 !! c
            = websocket.closed <$> conns w !! c
            /\ websocket.outbox <$> conns (Close (lookupSession sessionId w) w2).2 !! c
               = websocket.outbox <$> conns w !! c)).
    { split; [rewrite Hs; apply (apart_sessions _ _ _ Hap2)|].
      split; [rewrite Hn; apply (apart_nextRef _ _ _ Hap2)|].
      split; [intros c; rewrite Hd; by apply Hdom|].
      intros c Hc. rewrite (Hoth c Hc). split.
      - apply (apart_closed _ _ _ Hap2).
      - by apply (apart_outbox _ _ _ Hap2). }
    by destruct (Close _ w2) as [[r|m|] w3].
  - split; [apply (apart_sessions _ _ _ Hap)|].
    split; [apply (apart_nextRef _ _ _ Hap)|].
    split; [by apply Hdom|].
    intros c Hc. split.
    + apply (apart_closed _ _ _ Hap).
    + by apply (apart_outbox _ _ _ Hap).
Qed.

(** X5: on every path, a crash included, [ExecTerminal] adds no registry
    entry and removes none, allocates nothing, creates and drops no
    connection, and for every connection other than the session's own
    it changes neither whether it is closed nor what was written to
    it. *)
Theorem ExecTerminal_isolation
    (rx : RemoteExec) (container pod namespace sessionId : string)
    (w : World) :
  let own := sockConn (lookupSession sessionId w) in
  let w' := (ExecTerminal rx container pod namespace sessionId w).2 in
  terminalSessions w' = terminalSessions w
  /\ nextRef w' = nextRef w
  /\ (forall c, is_Some (conns w' !! c) <-> is_Some (conns w !! c))
  /\ (forall c, own <> Some c ->
        websocket.closed <$> conns w' !! c = websocket.closed <$> conns w !! c
        /\ websocket.outbox <$> conns w' !! c
           = websocket.outbox <$> conns w !! c).
Proof.
  intros own w'.
  destruct (ExecTerminal_apart_facts rx container pod namespace sessionId w)
    as (Hreg & Hrefs & Hdom & Hothers).
  split; [exact Hreg|]. split; [exact Hrefs|]. split; [exact Hdom|].
  intros c Hc. exact (Hothers c Hc).
Qed.

Lemma ExecTerminal_isolation_witness :
  let w := (CreateSession UpgradeOk (RandOk (fun _ => "001"%byte))
              createdWorld).2 in
  let w' := (ExecTerminal exitStatusExec "app" "web-1" "default"
               createdId w).2 in
  websocket.closed <$> conns w' !! 6 = websocket.closed <$> conns w !! 6
  /\ websocket.outbox <$> conns w' !! 6 = websocket.outbox <$> conns w !! 6.
Proof.
  intros w w'.
  apply (proj2 (proj2 (proj2
           (ExecTerminal_isolation exitStatusExec "app" "web-1" "default"
              createdId w))) 6).
  vm_compute. discriminate.
Defined.

(** X6: the registry stays keyed by the sessions' own ids, with every
    reference it holds allocated: this holds of the empty process and
    is kept by [CreateSession] and by [ExecTerminal]. *)
Theorem registry_ok_kept
    (up : UpgradeResult) (rnd : RandRead) (rx : RemoteExec)
    (container pod namespace sessionId : string) (w : World) :
  registry_ok w ->
  registry_ok (CreateSession up rnd w).2
  /\ registry_ok (ExecTerminal rx container pod namespace sessionId w).2.
Proof.
  intros Hok. split; [by apply registry_ok_CreateSession|].
  destruct (ExecTerminal_apart_facts rx container pod namespace sessionId w)
    as (Hs & Hn & _).
  intros k s. rewrite Hs, Hn. apply Hok.
Qed.

Lemma registry_ok_kept_witness :
  registry_ok (CreateSession UpgradeOk (RandOk (fun _ => "001"%byte))
                 createdWorld).2
  /\ registry_ok (ExecTerminal exitStatusExec "app" "web-1" "default"
                    createdId createdWorld).2.
Proof.
  apply (registry_ok_kept UpgradeOk (RandOk (fun _ => "001"%byte))
           exitStatusExec "app" "web-1" "default" createdId createdWorld).
  apply registry_ok_CreateSession, registry_ok_empty.
Defined.

(** * Panics *)

Lemma withConn_panic {A : Type} (t : TerminalSession) (w : World)
    (k : nat -> websocket.Conn -> Res A * World) (msg : string) :
  (forall c cv, (k c cv).1 <> Panic msg) ->
  (withConn t w k).1 = Panic msg -> msg = nilDeref.
Proof.
  intros Hk. unfold withConn. destruct (sockConn t) as [c|]; [|by intros [= <-]].
  destruct (conns w !! c) as [cv|]; [|by intros [= <-]].
  intros H. by destruct (Hk c cv).
Qed.

Lemma forget_panic {A : Type} (r : Res A * World) (msg : string) :
  (forget r).1 = Panic msg -> r.1 = Panic msg.
Proof. destruct r as [[] ?]; simpl; congruence. Qed.

Lemma streamAction_panic (t : TerminalSession) (a : Action) (w : World)
    (msg : string) :
  (streamAction t a w).1 = Panic msg -> msg = nilDeref.
Proof.
  destruct a; simpl; try done.
  - unfold readFromWebTerminal. destruct (decide _); [|done].
    destruct (default [] _); [|done]. apply withConn_panic.
    intros c cv. by destruct (websocket.ReadMessage cv) as [[[m|e0] cv']|].
  - intros H%forget_panic. by destruct (Read_no_panic t p w msg).
  - intros H%forget_panic. apply (withConn_panic t w
      (fun c cv =>
         let '(err, cv') := websocket.WriteMessage websocket.TextMessage p cv in
         match err with
         | Some e => (Ret (0, Some e), setConn c cv' w)
         | None => (Ret (length p, None), setConn c cv' w)
         end)).
    + intros c cv. by destruct (websocket.WriteMessage _ p cv) as [[e|] cv'].
    + exact H.
  - intros H%forget_panic. by destruct (Next_no_panic t w msg).
Qed.

Lemma runStream_crash (t : TerminalSession) (sched : list Action) (w : World)
    (msg : string) :
  (runStream t sched w).1 = Crash msg -> msg = nilDeref.
Proof.
  revert w. induction sched as [|a rest IH]; intros w; simpl; [done|].
  pose proof (streamAction_panic t a w) as Hp.
  destruct (streamAction t a w) as [[[]|m|] w1]; simpl in *;
    [apply IH | | apply IH].
  intros [= <-]. by apply Hp.
Qed.

Lemma execPod_crash rx container pod namespace cmd (t : TerminalSession)
    (w : World) (msg : string) :
  (execPod rx container pod namespace cmd t w).1 = Crash msg -> msg = nilDeref.
Proof.
  unfold execPod. destruct (NewSPDYExecutor rx _); [done|].
  destruct (Stream rx _) as [e|sched ret]; [done|].
  pose proof (runStream_crash t sched
                (emit (EvStreaming cmd) (emit (EvExec cmd) w)) msg) as Hc.
  destruct (runStream t sched _) as [[[]|m] w']; simpl in *; [done|].
  intros [= <-]. by apply Hc.
Qed.

Lemma ExecTerminal_loop_crash rx container pod namespace sessionId
    (candidates : list string) (err : option error) (w : World)
    (msg : string) :
  (ExecTerminal_loop rx container pod namespace sessionId candidates err w).1
  = Crash msg -> msg = nilDeref.
Proof.
  revert err w. induction candidates as [|shell rest IH]; intros err w; [done|].
  simpl.
  pose proof (execPod_crash rx container pod namespace [shell]
                (lookupSession sessionId w) w msg) as Hc.
  destruct (execPod rx container pod namespace [shell] _ w)
    as [[[e|]|m] w1]; simpl in *; [apply IH | done |].
  intros [= <-]. by apply Hc.
Qed.

Lemma ExecTerminal_nil_crash
    (rx : RemoteExec) (container pod namespace sessionId : string)
    (w : World) :
  sockConn (lookupSession sessionId w) = None ->
  (ExecTerminal rx container pod namespace sessionId w).1 = Crash nilDeref.
Proof.
  intros Hnil. unfold ExecTerminal.
  pose proof (ExecTerminal_loop_crash rx container pod namespace sessionId
                shells None (setReaders (fun r => {[sessionId]} ∪ r) w))
    as Hc.
  destruct (ExecTerminal_loop _ _ _ _ _ _ _ _) as [[err|msg] w1]; simpl in *.
  - unfold Close, withConn. by rewrite Hnil.
  - by rewrite (Hc msg eq_refl).
Qed.

(** X7: the orchestrator started for a session without a connection (an
    id that is not in the registry, whose lookup gives the zero value,
    or a session registered after a failed upgrade) never returns: the
    run ends in a nil-pointer panic, whatever the collaborator does. *)
Theorem ExecTerminal_without_connection_crashes
    (rx : RemoteExec) (container pod namespace sessionId : string)
    (w : World) :
  sockConn (lookupSession sessionId w) = None ->
  (ExecTerminal rx container pod namespace sessionId w).1 = Crash nilDeref.
Proof.
  intros Hnil.
  destruct (ExecTerminal rx container pod namespace sessionId w) as [r w'] eqn:Hrun.
  pose proof (ExecTerminal_nil_crash rx container pod namespace sessionId w
                Hnil) as Hcrash.
  rewrite Hrun in Hcrash. exact Hcrash.
Qed.

Lemma ExecTerminal_without_connection_crashes_witness :
  (ExecTerminal idleExec "app" "web-1" "default" "no-such-session"
     createdWorld).1 = Crash nilDeref.
Proof.
  apply (ExecTerminal_without_connection_crashes
           idleExec "app" "web-1" "default" "no-such-session" createdWorld).
  vm_compute. reflexivity.
Defined.

(** * Output to the client *)

(** X9: a toast is sent exactly as process output is: [Toast] on a
    string leaves the process in the state [Write] on the string's
    bytes leaves it in, the same text frame included, and it returns
    the error [Write] returns; the client cannot tell the two apart. *)
Theorem Toast_same_as_Write (t : TerminalSession) (p : string) (w : World) :
  (Toast t p w).2 = (Write t (String.list_byte_of_string p) w).2
  /\ (Toast t p w).1
     = match (Write t (String.list_byte_of_string p) w).1 with
       | Ret (_, err) => Ret err
       | Panic m => Panic m
       | Block => Block
       end.
Proof.
  unfold Toast, Write, withConn.
  destruct (sockConn t) as [c|]; [|done].
  destruct (conns w !! c) as [cv|]; [|done].
  by destruct (websocket.WriteMessage _ _ cv) as [[e|] cv'].
Qed.

(** X10: on an open, healthy connection a run of [Write] calls puts one
    text frame per call on the socket, in the order of the calls, and
    touches nothing else of the connection. *)
Theorem Writes_reach_socket_in_order
    (t : TerminalSession) (ps : list (list byte)) (c : nat)
    (cv : websocket.Conn) (w : World) :
  sockConn t = Some c ->
  conns w !! c = Some cv ->
  websocket.closed cv = false ->
  websocket.broken cv = None ->
  exists w',
    runStream t (map CallWrite ps) w = (Done (), w')
    /\ conns w' !! c
       = Some (websocket.mkConn false None (websocket.inbox cv)
                 (websocket.outbox cv
                  ++ map (fun p => (websocket.TextMessage, p)) ps))
    /\ trace w' = trace w.
Proof.
  intros Hc. revert cv w.
  induction ps as [|p ps IH]; intros cv w Hcv Hcl Hbr.
  - exists w. simpl. rewrite app_nil_r. split; [done|]. split; [|done].
    rewrite Hcv. f_equal. destruct cv; simpl in *. by subst.
  - cbn [map runStream streamAction].
    unfold Write, withConn, websocket.WriteMessage.
    rewrite Hc, Hcv, Hcl, Hbr. cbn [forget].
    set (cv1 := websocket.mkConn _ _ _ _).
    destruct (IH cv1 (setConn c cv1 w)) as (w' & Hrun & Hconn & Htr);
      [by simpl; rewrite lookup_insert_eq | done | done |].
    exists w'. split; [exact Hrun|]. split; [|exact Htr].
    rewrite Hconn. unfold cv1. simpl. by rewrite <- app_assoc.
Qed.

Lemma Writes_reach_socket_in_order_witness :
  exists w',
    runStream createdSession
      (map CallWrite [["l"%byte]; ["s"%byte]]) createdWorld = (Done (), w')
    /\ conns w' !! 1
       = Some (websocket.mkConn false None (websocket.inbox newConn)
                 (websocket.outbox newConn
                  ++ map (fun p => (websocket.TextMessage, p))
                       [["l"%byte]; ["s"%byte]]))
    /\ trace w' = trace createdWorld.
Proof.
  apply (Writes_reach_socket_in_order createdSession
           [["l"%byte]; ["s"%byte]] 1 newConn createdWorld).
  - vm_compute. reflexivity.
  - vm_compute. reflexivity.
  - reflexivity.
  - reflexivity.
Defined.

(** * From the socket to the collaborator *)

Lemma delivered_snoc (ch : nat) (evs : list Event) (ev : Event) :
  delivered ch (evs ++ [ev])
  = delivered ch evs
    ++ match ev with
       | EvStdin ch' m n => if decide (ch' = ch) then take n m else []
       | _ => []
       end.
Proof.
  unfold delivered. rewrite omap_app, join_app. f_equal.
  destruct ev; simpl; try done.
  destruct (decide _); simpl; [by rewrite app_nil_r | done].
Qed.

Lemma delivered_snoc_two (ch : nat) (evs : list Event) (e1 e2 : Event) :
  delivered ch (evs ++ [e1; e2])
  = delivered ch ((evs ++ [e1]) ++ [e2]).
Proof. by rewrite <- app_assoc. Qed.

Lemma inbound_snoc_two (ch : nat) (evs : list Event) (e1 e2 : Event) :
  inbound ch (evs ++ [e1; e2])
  = inbound ch ((evs ++ [e1]) ++ [e2]).
Proof. by rewrite <- app_assoc. Qed.

Lemma reader_turn_moves_frame (sid : string) (s : TerminalSession) (c : nat)
    (cv : websocket.Conn) (m : list byte) (rest : list (list byte))
    (w : World) :
  terminalSessions w !! sid = Some s ->
  sockConn s = Some c ->
  conns w !! c = Some cv ->
  websocket.closed cv = false ->
  websocket.inbox cv = m :: rest ->
  sid ∈ readers w ->
  byteChans w !! receiver s = Some [] ->
  readFromWebTerminal sid w
  = (Ret (),
     emit (EvInbound (receiver s) m)
       (setByteChan (receiver s) [m]
          (setConn c (websocket.mkConn false (websocket.broken cv) rest
                        (websocket.outbox cv)) w))).
Proof.
  intros Hs Hc Hcv Hcl Hin Hr Hq. unfold readFromWebTerminal.
  rewrite decide_True by done.
  assert (Hlk : lookupSession sid w = s) by (unfold lookupSession; by rewrite Hs).
  rewrite Hlk, Hq. simpl. unfold withConn.
  rewrite Hc, Hcv. unfold websocket.ReadMessage. by rewrite Hcl, Hin.
Qed.

Lemma Read_with_room (s : TerminalSession) (m : list byte)
    (rest : list (list byte)) (size : nat) (w : World) :
  byteChans w !! receiver s = Some (m :: rest) ->
  length m <= size ->
  exists p',
    Read s (replicate size "000"%byte) w
    = (Ret (length m, p', None),
       emit (EvStdin (receiver s) m (length m))
         (setByteChan (receiver s) rest w)).
Proof.
  intros Hq Hfit. unfold Read, copy. rewrite Hq. simpl.
  rewrite length_replicate, Nat.min_r by lia. by eexists.
Qed.

(** One frame pumped: a turn of the reader loop, then a [Read] with
    room for the frame. *)
Lemma pump_one (sid : string) (s : TerminalSession) (c : nat)
    (cv : websocket.Conn) (m : list byte) (rest : list (list byte))
    (size : nat) (w : World) :
  terminalSessions w !! sid = Some s ->
  sockConn s = Some c ->
  conns w !! c = Some cv ->
  websocket.closed cv = false ->
  websocket.inbox cv = m :: rest ->
  sid ∈ readers w ->
  byteChans w !! receiver s = Some [] ->
  length m <= size ->
  exists w2,
    runStream s [ReaderTurn sid; CallRead (replicate size "000"%byte)] w
    = (Done (), w2)
    /\ terminalSessions w2 = terminalSessions w
    /\ readers w2 = readers w
    /\ conns w2 !! c
       = Some (websocket.mkConn false (websocket.broken cv) rest
                 (websocket.outbox cv))
    /\ byteChans w2 !! receiver s = Some []
    /\ trace w2 = trace w ++ [EvInbound (receiver s) m;
                              EvStdin (receiver s) m (length m)].
Proof.
  intros Hs Hc Hcv Hcl Hin Hr Hq Hfit.
  cbn [runStream streamAction].
  rewrite (reader_turn_moves_frame sid s c cv m rest w) by done.
  set (w1 := emit _ _).
  destruct (Read_with_room s m [] size w1) as [p' HRead]; [|done|].
  { unfold w1. simpl. by rewrite lookup_insert_eq. }
  rewrite HRead. cbn [forget]. eexists. split; [reflexivity|].
  unfold w1. simpl. rewrite lookup_insert_eq.
  repeat split; try done.
  - rewrite lookup_insert_eq. done.
  - by rewrite <- app_assoc.
Qed.

(** X11: end to end, with room in the buffer nothing is lost: when the
    client's frames are waiting on the socket of an open session whose
    reader loop runs and whose inbound channel is empty, alternating a
    turn of the reader loop with a [Read] whose buffer holds the longest
    frame hands the collaborator exactly the frames' bytes, in order,
    and leaves the socket and the channel drained. *)
Theorem pump_delivers_all_frames
    (sid : string) (s : TerminalSession) (c : nat) (size : nat)
    (frames : list (list byte)) (cv : websocket.Conn) (w : World) :
  terminalSessions w !! sid = Some s ->
  sockConn s = Some c ->
  conns w !! c = Some cv ->
  websocket.closed cv = false ->
  websocket.inbox cv = frames ->
  sid ∈ readers w ->
  byteChans w !! receiver s = Some [] ->
  Forall (fun m => length m <= size) frames ->
  exists w',
    runStream s (pump sid size (length frames)) w = (Done (), w')
    /\ delivered (receiver s) (trace w')
       = delivered (receiver s) (trace w) ++ mjoin frames
    /\ inbound (receiver s) (trace w')
       = inbound (receiver s) (trace w) ++ mjoin frames
    /\ queued (receiver s) w' = []
    /\ conns w' !! c
       = Some (websocket.mkConn false (websocket.broken cv) []
                 (websocket.outbox cv)).
Proof.
  intros Hs Hc. revert cv w Hs.
  induction frames as [|m rest IH]; intros cv w Hs Hcv Hcl Hin Hr Hq Hfit.
  - exists w. simpl. rewrite !app_nil_r. repeat split; try done.
    + unfold queued. by rewrite Hq.
    + rewrite Hcv. f_equal. destruct cv; simpl in *. by subst.
  - apply Forall_cons in Hfit as [Hm Hrest].
    destruct (pump_one sid s c cv m rest size w)
      as (w2 & Hrun2 & Hs2 & Hr2 & Hcv2 & Hq2 & Htr2); try done.
    destruct (IH (websocket.mkConn false (websocket.broken cv) rest
                    (websocket.outbox cv)) w2)
      as (w' & Hrun & Hdel & Hinb & Hqd & Hcv');
      try done; [by rewrite Hs2 | by rewrite Hr2 |].
    exists w'.
    assert (Hpump : pump sid size (length (m :: rest))
                    = [ReaderTurn sid; CallRead (replicate size "000"%byte)]
                      ++ pump sid size (length rest)) by done.
    split.
    { rewrite Hpump. revert Hrun2. cbn [runStream app].
      destruct (streamAction s (ReaderTurn sid) w) as [[[]|msg|] w1];
        [| done |];
        (destruct (streamAction s (CallRead _) w1) as [[[]|msg'|] w1'];
         [| done |]); by intros [= ->]. }
    rewrite Hdel, Hinb, Htr2.
    rewrite !delivered_snoc_two, !inbound_snoc_two.
    rewrite !delivered_snoc, !inbound_snoc. cbn beta iota.
    rewrite !decide_True by done. rewrite firstn_all, !app_nil_r.
    rewrite <- !app_assoc. repeat split; try done.
Qed.

Lemma pump_delivers_all_frames_witness :
  let frames := [["l"%byte; "s"%byte]; ["010"%byte]] in
  let cv := websocket.mkConn false None frames [] in
  let w := setReaders (fun r => {[createdId]} ∪ r)
             (setConn 1 cv createdWorld) in
  exists w',
    runStream createdSession (pump createdId 2 (length frames)) w
    = (Done (), w')
    /\ delivered (receiver createdSession) (trace w')
       = delivered (receiver createdSession) (trace w) ++ mjoin frames
    /\ inbound (receiver createdSession) (trace w')
       = inbound (receiver createdSession) (trace w) ++ mjoin frames
    /\ queued (receiver createdSession) w' = []
    /\ conns w' !! 1
       = Some (websocket.mkConn false (websocket.broken cv) []
                 (websocket.outbox cv)).
Proof.
  intros frames cv w.
  apply (pump_delivers_all_frames createdId createdSession 1 2 frames cv w).
  - vm_compute. reflexivity.
  - vm_compute. reflexivity.
  - vm_compute. reflexivity.
  - reflexivity.
  - reflexivity.
  - apply elem_of_union_l, elem_of_singleton. reflexivity.
  - vm_compute. reflexivity.
  - repeat constructor.
Defined.

(** * The reader loop *)

(** X12: when [ReadMessage] fails (the connection was closed on this
    end, or the transport broke and nothing is left to read) and the
    loop is not suspended in a send, its turn logs the error and the
    closing line and the loop is over: later turns do nothing. The loop
    puts nothing on the channel and leaves the connection and the
    registry as they are; it does not close the session. *)
Theorem reader_loop_ends_on_read_error
    (sid : string) (s : TerminalSession) (c : nat) (cv : websocket.Conn)
    (w : World) :
  sid ∈ readers w ->
  terminalSessions w !! sid = Some s ->
  sockConn s = Some c ->
  conns w !! c = Some cv ->
  default [] (byteChans w !! receiver s) = [] ->
  websocket.closed cv = true
  \/ (websocket.inbox cv = [] /\ is_Some (websocket.broken cv)) ->
  exists e w',
    readFromWebTerminal sid w = (Ret (), w')
    /\ (websocket.closed cv = true -> e = websocket.errClosed)
    /\ (websocket.closed cv = false -> websocket.broken cv = Some e)
    /\ (sid ∉ readers w')
    /\ trace w' = trace w
                  ++ [EvLog "error: " (Some e);
                      EvLog "readFromWebTerminal ReadMessage was closed" None]
    /\ closes (trace w') = closes (trace w)
    /\ terminalSessions w' = terminalSessions w
    /\ conns w' !! c = Some cv
    /\ byteChans w' = byteChans w
    /\ readFromWebTerminal sid w' = (Block, w').
Proof.
  intros Hr Hs Hc Hcv Hq Herr.
  assert (Hlk : lookupSession sid w = s) by (unfold lookupSession; by rewrite Hs).
  assert (Hread : exists e,
            websocket.ReadMessage cv = Some (inr e, cv)
            /\ (websocket.closed cv = true -> e = websocket.errClosed)
            /\ (websocket.closed cv = false -> websocket.broken cv = Some e)).
  { unfold websocket.ReadMessage.
    destruct (websocket.closed cv) eqn:Hcl; [by eexists|].
    destruct Herr as [|[Hin [e He]]]; [done|]. rewrite Hin, He. by eexists. }
  destruct Hread as (e & Hread & He1 & He2).
  unfold readFromWebTerminal at 1. rewrite decide_True by done.
  rewrite Hlk, Hq. unfold withConn. rewrite Hc, Hcv, Hread.
  eexists e, _. split; [reflexivity|]. simpl.
  assert (Hgone : sid ∉ readers w ∖ {[sid]}).
  { apply not_elem_of_difference. right. by apply elem_of_singleton. }
  split; [done|]. split; [done|]. split; [exact Hgone|]. split.
  { by rewrite <- app_assoc. }
  split.
  { rewrite <- app_assoc, closes_app. unfold closes at 2. simpl. lia. }
  split; [done|]. split; [by rewrite lookup_insert_eq|]. split; [done|].
  unfold readFromWebTerminal. rewrite decide_False; [done|]. exact Hgone.
Qed.

Lemma reader_loop_ends_on_read_error_witness :
  exists e w',
    readFromWebTerminal createdId closedWorld = (Ret (), w')
    /\ (true = true -> e = websocket.errClosed)
    /\ (true = false -> None = Some e)
    /\ (createdId ∉ readers w')
    /\ trace w' = trace closedWorld
                  ++ [EvLog "error: " (Some e);
                      EvLog "readFromWebTerminal ReadMessage was closed" None]
    /\ closes (trace w') = closes (trace closedWorld)
    /\ terminalSessions w' = terminalSessions closedWorld
    /\ conns w' !! 1 = Some (websocket.mkConn true None [] [])
    /\ byteChans w' = byteChans closedWorld
    /\ readFromWebTerminal createdId w' = (Block, w').
Proof.
  apply (reader_loop_ends_on_read_error createdId createdSession 1
           (websocket.mkConn true None [] []) closedWorld).
  - vm_compute. reflexivity.
  - vm_compute. reflexivity.
  - vm_compute. reflexivity.
  - vm_compute. reflexivity.
  - vm_compute. reflexivity.
  - left. reflexivity.
Defined.

Lemma suspended_reader_step (sid : string) (s : TerminalSession)
    (q : list (list byte)) (t : TerminalSession) (a : Action) (w : World) :
  q <> [] ->
  isCallRead a = false ->
  terminalSessions w !! sid = Some s
  /\ byteChans w !! receiver s = Some q
  /\ sid ∈ readers w ->
  let w' := (streamAction t a w).2 in
  terminalSessions w' !! sid = Some s
  /\ byteChans w' !! receiver s = Some q
  /\ sid ∈ readers w'.
Proof.
  intros Hne Ha (Hs & Hq & Hr). destruct a; try done; simpl.
  - (* a turn of some reader loop *)
    unfold readFromWebTerminal. destruct (decide _) as [Hin|]; [|done].
    destruct (default [] (byteChans w !! _)) eqn:Hq'; [|done].
    assert (Hrcv : receiver (lookupSession sessionId w) <> receiver s).
    { intros Heq. rewrite Heq, Hq in Hq'. simpl in Hq'. done. }
    assert (Hsid : sessionId <> sid).
    { intros ->. apply Hrcv. unfold lookupSession. by rewrite Hs. }
    unfold withConn. destruct (sockConn _) as [c|]; [|done].
    destruct (conns w !! c) as [cv|]; [|done].
    destruct (websocket.ReadMessage cv) as [[[m|e0] cv']|]; [| |done]; simpl.
    + split; [done|]. split; [|done]. by rewrite lookup_insert_ne.
    + split; [done|]. split; [done|].
      apply elem_of_difference. split; [done|].
      intros Hx. apply elem_of_singleton in Hx. congruence.
  - unfold netRecv. destruct (conns w !! c) as [cv|]; [|done].
    destruct (websocket.closed cv); [done|].
    by destruct (websocket.broken cv).
  - unfold netDown. destruct (conns w !! c) as [cv|]; [|done].
    by destruct (websocket.broken cv).
  - rewrite forget_snd. unfold Write, withConn.
    destruct (sockConn t) as [c|]; [|done].
    destruct (conns w !! c) as [cv|]; [|done].
    by destruct (websocket.WriteMessage _ p cv) as [[e|] cv'].
  - rewrite forget_snd. unfold Next.
    by destruct (default [] (sizeChans w !! _)).
Qed.

(** X13: only a [Read] releases a reader loop that is suspended in its
    send. Whatever else happens (writes, resize polls, turns of reader
    loops, frames arriving, the transport failing), and whether or not
    the run ends in a panic, the chunk stays queued and the loop stays
    alive; after the last [Read] of a session it stays so for good. *)
Theorem suspended_reader_waits_for_Read
    (sid : string) (s : TerminalSession) (q : list (list byte))
    (t : TerminalSession) (sched : list Action) (w : World) :
  q <> [] ->
  Forall (fun a => isCallRead a = false) sched ->
  terminalSessions w !! sid = Some s ->
  byteChans w !! receiver s = Some q ->
  sid ∈ readers w ->
  let w' := (runStream t sched w).2 in
  byteChans w' !! receiver s = Some q
  /\ sid ∈ readers w'
  /\ (readFromWebTerminal sid w').1 = Block.
Proof.
  intros Hne Hsched Hs Hq Hr.
  assert (Hinv : let w' := (runStream t sched w).2 in
                 terminalSessions w' !! sid = Some s
                 /\ byteChans w' !! receiver s = Some q
                 /\ sid ∈ readers w').
  { revert w Hs Hq Hr. induction Hsched as [|a rest Ha _ IH]; intros w Hs Hq Hr.
    - done.
    - cbn [runStream].
      pose proof (suspended_reader_step sid s q t a w Hne Ha
                    (conj Hs (conj Hq Hr))) as (Hs1 & Hq1 & Hr1).
      destruct (streamAction t a w) as [[[]|msg|] w1]; simpl in *;
        [by apply IH | done | by apply IH]. }
  destruct Hinv as (Hs' & Hq' & Hr'). split; [done|]. split; [done|].
  unfold readFromWebTerminal. rewrite decide_True by done.
  unfold lookupSession. rewrite Hs'. simpl. rewrite Hq'. simpl.
  by destruct q.
Qed.

Lemma suspended_reader_waits_for_Read_witness :
  let w := setReaders (fun r => {[createdId]} ∪ r) pendingWorld in
  let w' := (runStream createdSession
               [ReaderTurn createdId; CallWrite ["$"%byte]; CallNext;
                NetDown 1 "broken pipe"; ReaderTurn createdId] w).2 in
  byteChans w' !! receiver createdSession
  = Some [["a"%byte; "b"%byte; "c"%byte]]
  /\ createdId ∈ readers w'
  /\ (readFromWebTerminal createdId w').1 = Block.
Proof.
  intros w.
  apply (suspended_reader_waits_for_Read createdId createdSession
           [["a"%byte; "b"%byte; "c"%byte]] createdSession
           [ReaderTurn createdId; CallWrite ["$"%byte]; CallNext;
            NetDown 1 "broken pipe"; ReaderTurn createdId] w).
  - discriminate.
  - repeat constructor.
  - vm_compute. reflexivity.
  - vm_compute. reflexivity.
  - vm_compute. reflexivity.
Defined.

(** * Token check and the terminal handler *)

Lemma IsVaildJwtToken_true (tok : jwt.Token) (err : option error) (now : Z) :
  jwt.Valid tok = true -> jwt.ExpiresAt tok <> 0%Z ->
  (now <= jwt.ExpiresAt tok)%Z ->
  IsVaildJwtToken (Some tok, err) now = (Ret true, []).
Proof.
  intros Hv He Hle. unfold IsVaildJwtToken, jwt.VerifyExpiresAt. rewrite Hv.
  destruct (Z.eqb_spec (jwt.ExpiresAt tok) 0); [done|].
  destruct (Z.leb_spec now (jwt.ExpiresAt tok)); [done | lia].
Qed.


(** X14: [IsVaildJwtToken] accepts exactly the tokens that the library
    parsed and found valid, that carry an expiry, and whose expiry is
    not past: a valid token without an expiry claim is refused. It
    panics exactly when the parser returned no token, and it prints the
    parser's error exactly when the library found the token invalid (a
    missing or past expiry is refused silently). *)
Theorem IsVaildJwtToken_accepts_iff
    (parsed : option jwt.Token * option error) (now : Z) :
  ((IsVaildJwtToken parsed now).1 = Ret true <->
     exists tok, parsed.1 = Some tok
                 /\ jwt.Valid tok = true
                 /\ jwt.ExpiresAt tok <> 0%Z
                 /\ (now <= jwt.ExpiresAt tok)%Z)
  /\ ((IsVaildJwtToken parsed now).1 = Panic nilDeref <-> parsed.1 = None)
  /\ (IsVaildJwtToken parsed now).1 <> Block
  /\ ((IsVaildJwtToken parsed now).2 = [parsed.2] <->
        exists tok, parsed.1 = Some tok /\ jwt.Valid tok = false).
Proof.
  destruct parsed as [[tok|] err]; simpl.
  2: { repeat split; try done; intros (tok & Htok & _); done. }
  unfold jwt.VerifyExpiresAt. split; [|split; [|split]].
  - split.
    + destruct (jwt.Valid tok) eqn:Hv; [|done].
      destruct (Z.eqb_spec (jwt.ExpiresAt tok) 0) as [He|He]; [done|].
      destruct (Z.leb_spec now (jwt.ExpiresAt tok)) as [Hle|Hlt]; [|done].
      intros _. by exists tok.
    + intros (tok' & [= <-] & Hv & He & Hle). rewrite Hv.
      destruct (Z.eqb_spec (jwt.ExpiresAt tok) 0); [done|].
      destruct (Z.leb_spec now (jwt.ExpiresAt tok)); [done | lia].
  - split; [|done]. destruct (jwt.Valid tok); [|done].
    destruct (jwt.ExpiresAt tok =? 0)%Z; [done|].
    by destruct (now <=? jwt.ExpiresAt tok)%Z.
  - destruct (jwt.Valid tok); [|done].
    destruct (jwt.ExpiresAt tok =? 0)%Z; [done|].
    by destruct (now <=? jwt.ExpiresAt tok)%Z.
  - split.
    + destruct (jwt.Valid tok) eqn:Hv; [|intros _; by exists tok].
      destruct (jwt.ExpiresAt tok =? 0)%Z; [done|].
      by destruct (now <=? jwt.ExpiresAt tok)%Z.
    + intros (tok' & [= <-] & Hv). by rewrite Hv.
Qed.



(** X16: a request with an accepted token always has its session
    registered under the returned id and its orchestrator started,
    whatever the upgrade did, because [CreateSession] never reports a
    failure. After a successful upgrade the session has a fresh open
    connection; after a failed upgrade it has none, and the orchestrator
    the handler starts ends in a nil-pointer panic whatever the
    collaborator does. *)
Theorem TerminalHandler_accepts
    (tok : jwt.Token) (err : option error) (now : Z)
    (up : UpgradeResult) (rnd : RandRead)
    (container pod namespace : string) (w : World) :
  jwt.Valid tok = true ->
  jwt.ExpiresAt tok <> 0%Z ->
  (now <= jwt.ExpiresAt tok)%Z ->
  exists sid s w',
    TerminalHandler (Some tok, err) now up rnd container pod namespace w
    = (Ret (Some sid), w')
    /\ sid = (GenTerminalSessionId rnd).1
    /\ terminalSessions w' !! sid = Some s
    /\ id s = sid
    /\ match up with
       | UpgradeOk =>
           exists c, sockConn s = Some c /\ conns w' !! c = Some newConn
       | UpgradeErr _ =>
           sockConn s = None
           /\ forall rx,
                (ExecTerminal rx container pod namespace sid w').1
                = Crash nilDeref
       end.
Proof.
  intros Hv He Hle. unfold TerminalHandler, checkJwtToken.
  rewrite (IsVaildJwtToken_true tok err now Hv He Hle). cbn [fst].
  set (w0 := emit _ w).
  destruct (CreateSession_facts up rnd w0)
    as (Herr & Hid & Hreg & Hids & _ & _ & Hconn & _).
  destruct (CreateSession_eq up rnd w0) as (w1 & Hrun & Hmap & _).
  rewrite Hrun in *. cbn [fst snd] in *.
  set (sid := (GenTerminalSessionId rnd).1) in *.
  eexists sid, _, _. split; [reflexivity|]. split; [done|].
  cbn [terminalSessions emit conns]. split; [exact Hreg|]. split; [exact Hids|].
  destruct up as [|e].
  - by apply Hconn.
  - assert (Hnil : sockConn (lookupSession sid w1) = None).
    { unfold lookupSession. rewrite Hmap, lookup_insert_eq. done. }
    split; [exact Hnil|]. intros rx.
    by apply ExecTerminal_nil_crash.
Qed.

Lemma TerminalHandler_accepts_witness :
  exists sid s w',
    TerminalHandler (Some (jwt.mkToken true 1800000000), None) 1700000000
      (UpgradeErr "websocket: bad handshake") fixedRand
      "app" "web-1" "default" emptyWorld
    = (Ret (Some sid), w')
    /\ sid = (GenTerminalSessionId fixedRand).1
    /\ terminalSessions w' !! sid = Some s
    /\ id s = sid
    /\ (sockConn s = None
        /\ forall rx,
             (ExecTerminal rx "app" "web-1" "default" sid w').1
             = Crash nilDeref).
Proof.
  apply (TerminalHandler_accepts (jwt.mkToken true 1800000000) None 1700000000
           (UpgradeErr "websocket: bad handshake") fixedRand
           "app" "web-1" "default" emptyWorld).
  - reflexivity.
  - discriminate.
  - vm_compute. discriminate.
Defined.

(** * Workload discovery *)

(** The index loop after [j] rounds: the first [j] names are in place,
    the rest of the slice is still empty. *)
Lemma fillPodNames_rounds (items : list Pod) (j : nat) :
  j <= length items ->
  foldl (fun podNames i =>
           <[i := default "" (Name <$> items !! i)]> podNames)
        (replicate (length items) "") (seq 0 j)
  = take j (map Name items) ++ replicate (length items - j) "".
Proof.
  induction j as [|j IH]; intros Hj.
  - simpl. by rewrite Nat.sub_0_r.
  - rewrite seq_S, foldl_app, IH by lia. simpl.
    destruct (lookup_lt_is_Some_2 items j) as [pod Hpod]; [lia|].
    rewrite Hpod. simpl.
    assert (Hlen : length (take j (map Name items)) = j).
    { rewrite length_take, length_map. lia. }
    rewrite insert_app_r_alt by lia. rewrite Hlen, Nat.sub_diag.
    replace (length items - j) with (S (length items - S j)) by lia.
    simpl. rewrite (take_S_r _ _ (Name pod)).
    + by rewrite <- app_assoc.
    + by rewrite list_lookup_fmap, Hpod.
Qed.

Lemma GetPodListByLable_rows (items : list Pod) :
  (GetPodListByLable (inl items)).1 = (Some (map Name items), None).
Proof.
  unfold GetPodListByLable, fillPodNames. simpl.
  rewrite fillPodNames_rounds by done.
  rewrite Nat.sub_diag, app_nil_r, take_ge by (by rewrite length_map).
  done.
Qed.

(** X17: on success [GetPodListByLable] returns the names of the listed
    pods, one per pod and in the order of the listing, with a nil
    error, and announces their number; an empty listing gives an empty,
    non-nil slice. When the listing fails it returns a nil slice and
    the listing's error, and prints nothing. *)
Theorem GetPodListByLable_names (listed : list Pod + error) :
  match listed with
  | inl items =>
      exists line,
        GetPodListByLable listed = ((Some (map Name items), None), [line])
        /\ line = "There are " +:+ pretty (length items)
                  +:+ " pods in the cluster"
  | inr err => GetPodListByLable listed = ((None, Some err), [])
  end.
Proof.
  destruct listed as [items|err]; [|done].
  eexists. split; [|reflexivity].
  pose proof (GetPodListByLable_rows items) as Hrows.
  unfold GetPodListByLable in *. simpl in *. by injection Hrows as ->.
Qed.

(** X18: once the client set is there and the listing call has
    returned, [GetPodHandler] answers 200 with the names in listing
    order between brackets, and it answers a failed listing exactly as
    it answers a listing without pods: the client cannot tell a
    discovery failure from an empty result. *)
Theorem GetPodHandler_failed_listing_looks_empty :
  (forall items,
     GetPodHandler (inl items)
     = (200, ("[" +:+ String.concat " " (map Name items) +:+ "]")
             +:+ String.String "010"%char ""))
  /\ (forall err,
        GetPodHandler (inr err) = GetPodHandler (inl [])
        /\ GetPodHandler (inr err)
           = (200, "[]" +:+ String.String "010"%char "")).
Proof.
  split.
  - intros items. unfold GetPodHandler.
    pose proof (GetPodListByLable_rows items) as Hrows.
    rewrite Hrows. reflexivity.
  - intros err. split; reflexivity.
Qed.

Lemma runStream_fifo_when_chunks_fit_witness :
  let ch := receiver createdSession in
  let w := setReaders (fun r => {[createdId]} ∪ r) createdWorld in
  let sched := [NetRecv 1 ["l"%byte; "s"%byte]; ReaderTurn createdId;
                CallRead (replicate 4 "000"%byte);
                NetRecv 1 ["010"%byte]; ReaderTurn createdId] in
  let w' := (runStream createdSession sched w).2 in
  inbound ch (trace w') = delivered ch (trace w') ++ queued ch w'.
Proof.
  intros ch w sched.
  apply (runStream_fifo_when_chunks_fit ch createdSession sched w).
  - vm_compute. reflexivity.
  - vm_compute. repeat constructor.
Defined.
